(** * RRT planner with an adaptive sampling radius (rrt_csa_anim.py)

    A shallow embedding of the planner of [rrt_csa_anim.py] and the
    properties its specification states about it.

    Numbers.  The program computes with Python floats (and a few ints that
    are mixed into float expressions).  In the main embedding they are the
    real numbers of the Standard Library: [+], [-], [*], [/], [**2],
    [math.sqrt], [math.hypot], [math.cos], [math.sin], [math.atan2] and
    [math.floor] are the exact operations, so rounding, overflow and NaN are
    outside of it.  What [random.randint] returns and what it is compared
    with are integers ([Z]).

    Rounding.  Python floats are IEEE 754 binary64 numbers and every
    operation on them rounds to the nearest.  Module [Binary64] embeds a
    turn of the loop of [planning] (its lines 76 to 89, with [steer],
    [get_nearest_node_index] and [check_collision]) a second time, over the
    primitive floats of Rocq, which are the same numbers with the same
    rounding.  It is used to compute what the program does on given inputs
    where rounding decides.  A statement over the real numbers that equates
    or bounds a computed number by a closed form is a statement about
    exact arithmetic, not about the rounded operations of the program.

    Exceptions.  A Python operation that can raise ([/] by zero, [min] of an
    empty list, [list.index] of an absent value, an index out of range)
    returns in the error monad [Py].

    Randomness.  [random.randint] and [random.uniform] read and advance a
    generator state; the planner is parametric in it (class [Random]) and
    threads the state explicitly.

    Drawing.  [draw_graph] only reads the planner and is left out, and so is
    the [animation] flag that guards its calls. *)

From Stdlib Require Import Reals Lra Lia ZArith List Bool Arith Permutation.
From Stdlib Require Floats.PrimFloat Floats.SpecFloat Floats.FloatOps.
Import ListNotations.

Local Open Scope R_scope.

(** ** Python exceptions as an error monad *)

Inductive Exception : Type :=
| ZeroDivisionError
| ValueError
| IndexError.

Inductive Py (A : Type) : Type :=
| Ok (a : A)
| Raise (e : Exception).

Arguments Ok {A} a.
Arguments Raise {A} e.

Definition bind {A B : Type} (m : Py A) (k : A -> Py B) : Py B :=
  match m with
  | Ok a => k a
  | Raise e => Raise e
  end.

Notation "v <- m ;; k" := (bind m (fun v => k))
  (at level 61, m at next level, right associativity).
Notation "' p <- m ;; k" := (bind m (fun v => let p := v in k))
  (at level 61, p pattern, m at next level, right associativity).

(** ** Built-ins of Python and of its [math] module *)

(** [a / b] on floats. *)
Definition py_div (a b : R) : Py R :=
  if Req_dec_T b 0 then Raise ZeroDivisionError else Ok (a / b).

(** [min(l)]: the first of the smallest items; an item replaces the current
    one only when it is strictly smaller. *)
Definition py_min (l : list R) : Py R :=
  match l with
  | [] => Raise ValueError
  | a :: l' =>
      Ok (fold_left (fun best item => if Rlt_dec item best then item else best)
                    l' a)
  end.

(** [l.index(v)]: the position of the first item equal to [v]. *)
Fixpoint py_index (v : R) (l : list R) : Py nat :=
  match l with
  | [] => Raise ValueError
  | a :: l' =>
      if Req_dec_T a v then Ok O
      else i <- py_index v l' ;; Ok (S i)
  end.

(** [l[i]] for an index [i >= 0]. *)
Definition py_getitem {A : Type} (l : list A) (i : nat) : Py A :=
  match nth_error l i with
  | Some a => Ok a
  | None => Raise IndexError
  end.

(** [l[-1]]. *)
Definition py_last {A : Type} (l : list A) : Py A :=
  py_getitem l (length l - 1).

(** [math.hypot(a, b)]. *)
Definition hypot (a b : R) : R := sqrt (a * a + b * b).

(** [math.atan2(b, a)]: the angle of the vector [(a, b)], in (-pi, pi], and
    0 for the null vector. *)
Definition atan2 (b a : R) : R :=
  if Rlt_dec 0 a then atan (b / a)
  else if Rlt_dec a 0 then
         if Rle_dec 0 b then atan (b / a) + PI else atan (b / a) - PI
  else if Rlt_dec 0 b then PI / 2
  else if Rlt_dec b 0 then - (PI / 2)
  else 0.

(** ** Module-level globals *)

Definition GoalBiased : bool := true.
Definition InflationRadius : R := 0.8.

(** ** class RRT *)

Module RRT.

(** class Node: a position, the points recorded on the way from the parent,
    and the parent.  A node is never written to once [steer] has returned
    it, so the reference to the parent is modelled by the parent itself. *)
#[warnings="-register-all"] Inductive Node : Type :=
  mkNode { x : R;
           y : R;
           path_x : list R;
           path_y : list R;
           parent : option Node }.

(** [Node(x, y)] *)
Definition Node_init (x0 y0 : R) : Node :=
  mkNode x0 y0 [] [] None.

(** An obstacle [(ox, oy, size)]. *)
Definition Obstacle : Type := (R * R * R)%type.

(** The attributes [__init__] gives a planner; [end_] is the attribute
    [end], a reserved word here. *)
Record t : Type :=
  mk { start : Node;
       end_ : Node;
       min_rand : R;
       max_rand : R;
       expand_dis : R;
       path_resolution : R;
       goal_sample_rate : Z;
       max_iter : Z;
       obstacle_list : list Obstacle;
       node_list : list Node;
       SamplingRadius : R;
       ExpansionCoeff : R;
       ExpansionEps : R }.

End RRT.

Import RRT.

Definition EuclideanDistanceOfNodes (start0 end0 : Node) : R :=
  sqrt ((y end0 - y start0) ^ 2 + (x end0 - x start0) ^ 2).

(** The default values of the keyword arguments of [RRT.__init__]. *)
Module Defaults.

Definition expand_dis : R := 0.8.
Definition path_resolution : R := 0.2.
Definition goal_sample_rate : Z := 5.
Definition max_iter : Z := 100000.

End Defaults.

(** [RRT.__init__] *)
Definition __init__ (start0 goal : R * R) (obstacle_list0 : list Obstacle)
    (rand_area : R * R) (expand_dis0 path_resolution0 : R)
    (goal_sample_rate0 max_iter0 : Z) : RRT.t :=
  let s := Node_init (fst start0) (snd start0) in
  let e := Node_init (fst goal) (snd goal) in
  {| start := s;
     end_ := e;
     min_rand := fst rand_area;
     max_rand := snd rand_area;
     expand_dis := expand_dis0;
     path_resolution := path_resolution0;
     goal_sample_rate := goal_sample_rate0;
     max_iter := max_iter0;
     obstacle_list := obstacle_list0;
     node_list := [];
     SamplingRadius := EuclideanDistanceOfNodes s e;
     ExpansionCoeff := 2;
     ExpansionEps := 0.3 |}.

(** Assignments to the two attributes [planning] writes. *)
Definition set_node_list (self : RRT.t) (l : list Node) : RRT.t :=
  {| start := start self; end_ := end_ self;
     min_rand := min_rand self; max_rand := max_rand self;
     expand_dis := expand_dis self; path_resolution := path_resolution self;
     goal_sample_rate := goal_sample_rate self; max_iter := max_iter self;
     obstacle_list := obstacle_list self;
     node_list := l;
     SamplingRadius := SamplingRadius self;
     ExpansionCoeff := ExpansionCoeff self;
     ExpansionEps := ExpansionEps self |}.

Definition set_SamplingRadius (self : RRT.t) (r : R) : RRT.t :=
  {| start := start self; end_ := end_ self;
     min_rand := min_rand self; max_rand := max_rand self;
     expand_dis := expand_dis self; path_resolution := path_resolution self;
     goal_sample_rate := goal_sample_rate self; max_iter := max_iter self;
     obstacle_list := obstacle_list self;
     node_list := node_list self;
     SamplingRadius := r;
     ExpansionCoeff := ExpansionCoeff self;
     ExpansionEps := ExpansionEps self |}.

(** [RRT.calc_distance_and_angle] *)
Definition calc_distance_and_angle (from_node to_node : Node) : R * R :=
  let dx := x to_node - x from_node in
  let dy := y to_node - y from_node in
  let d := hypot dx dy in
  let theta := atan2 dy dx in
  (d, theta).

(** [RRT.calc_dist_to_goal] *)
Definition calc_dist_to_goal (self : RRT.t) (x0 y0 : R) : R :=
  let dx := x0 - x (end_ self) in
  let dy := y0 - y (end_ self) in
  hypot dx dy.

(** One turn of the loop of [steer]: a step of [path_resolution] along
    [theta], recorded in the path. *)
Definition steer_step (self : RRT.t) (theta : R) (new_node : Node) : Node :=
  let x1 := x new_node + path_resolution self * cos theta in
  let y1 := y new_node + path_resolution self * sin theta in
  mkNode x1 y1 (path_x new_node ++ [x1]) (path_y new_node ++ [y1])
         (parent new_node).

(** [for _ in range(n_expand)] *)
Fixpoint steer_loop (self : RRT.t) (theta : R) (n : nat) (new_node : Node)
  : Node :=
  match n with
  | O => new_node
  | S n' => steer_loop self theta n' (steer_step self theta new_node)
  end.

(** [RRT.steer] *)
Definition steer (self : RRT.t) (from_node to_node : Node) (extend_length : R)
  : Py Node :=
  let new_node := Node_init (x from_node) (y from_node) in
  let '(d, theta) := calc_distance_and_angle new_node to_node in
  let new_node :=
    mkNode (x new_node) (y new_node) [x new_node] [y new_node]
           (parent new_node) in
  let extend_length := if Rgt_dec extend_length d then d else extend_length in
  q <- py_div extend_length (path_resolution self) ;;
  let n_expand := Zfloor q in
  let new_node := steer_loop self theta (Z.to_nat n_expand) new_node in
  let '(d, _) := calc_distance_and_angle new_node to_node in
  let new_node :=
    if Rle_dec d (path_resolution self)
    then mkNode (x new_node) (y new_node)
                (path_x new_node ++ [x to_node])
                (path_y new_node ++ [y to_node])
                (parent new_node)
    else new_node in
  Ok (mkNode (x new_node) (y new_node) (path_x new_node) (path_y new_node)
             (Some from_node)).

(** The [while] loop of [generate_final_course] and the append after it:
    the positions from [node] up to the node that has no parent. *)
Fixpoint course_from (node : Node) : list (R * R) :=
  match node with
  | mkNode nx ny _ _ par =>
      match par with
      | Some p => (nx, ny) :: course_from p
      | None => [(nx, ny)]
      end
  end.

(** [RRT.generate_final_course] *)
Definition generate_final_course (self : RRT.t) (goal_ind : nat)
  : Py (list (R * R)) :=
  let path := [(x (end_ self), y (end_ self))] in
  node <- py_getitem (node_list self) goal_ind ;;
  Ok (path ++ course_from node).

(** [RRT.get_nearest_node_index] *)
Definition get_nearest_node_index (node_list0 : list Node) (rnd_node : Node)
  : Py nat :=
  let dlist :=
    map (fun node => (x node - x rnd_node) ^ 2 + (y node - y rnd_node) ^ 2)
        node_list0 in
  m <- py_min dlist ;;
  minind <- py_index m dlist ;;
  Ok minind.

(** The list [d_list] that [check_collision] builds for one obstacle. *)
Definition d_list (node : Node) (ox oy : R) : list R :=
  let dx_list := map (fun x0 => ox - x0) (path_x node) in
  let dy_list := map (fun y0 => oy - y0) (path_y node) in
  map (fun '(dx, dy) => dx * dx + dy * dy) (combine dx_list dy_list).

(** The [for] loop of [check_collision]. *)
Fixpoint check_obstacles (node : Node) (obstacleList : list Obstacle)
  : Py bool :=
  match obstacleList with
  | [] => Ok true
  | (ox, oy, size) :: rest =>
      m <- py_min (d_list node ox oy) ;;
      if Rle_dec m ((size + InflationRadius) ^ 2)
      then Ok false
      else check_obstacles node rest
  end.

(** [RRT.check_collision]; [None] is Python's [None]. *)
Definition check_collision (node : option Node) (obstacleList : list Obstacle)
  : Py bool :=
  match node with
  | None => Ok false
  | Some n => check_obstacles n obstacleList
  end.

(** ** The random source *)

(** The two functions of the [random] module the planner calls, over a
    generator state [Gen]. *)
Class Random (Gen : Type) : Type :=
  { randint : Z -> Z -> Gen -> Z * Gen;
    uniform : R -> R -> Gen -> R * Gen }.

Section Planner.

Context {Gen : Type} {random : Random Gen}.

(** [Node(random.uniform(min_rand, max_rand), random.uniform(min_rand,
    max_rand))] *)
Definition uniform_node (self : RRT.t) (rs : Gen) : Node * Gen :=
  let (ux, rs1) := uniform (min_rand self) (max_rand self) rs in
  let (uy, rs2) := uniform (min_rand self) (max_rand self) rs1 in
  (Node_init ux uy, rs2).

(** [RRT.get_random_node] *)
Definition get_random_node (self : RRT.t) (rs : Gen) : Node * Gen :=
  if GoalBiased then
    let (k, rs1) := randint 0 100 rs in
    if (k >? goal_sample_rate self)%Z
    then uniform_node self rs1
    else (Node_init (x (end_ self)) (y (end_ self)), rs1)
  else uniform_node self rs.

(** How a turn of the loop of [planning] ends: with [continue] (or at the
    end of the body), or with [return path]. *)
Inductive Flow : Type :=
| Continue
| Return (path : list (R * R)).

(** The body of the loop of [planning] after the sample [rnd_node] has been
    drawn. *)
Definition planning_body (self : RRT.t) (rnd_node : Node)
  : Py (Flow * RRT.t) :=
  if Rgt_dec (EuclideanDistanceOfNodes (end_ self) rnd_node)
             (SamplingRadius self)
  then Ok (Continue, self)
  else
    nearest_ind <- get_nearest_node_index (node_list self) rnd_node ;;
    nearest_node <- py_getitem (node_list self) nearest_ind ;;
    new_node <- steer self nearest_node rnd_node (expand_dis self) ;;
    free <- check_collision (Some new_node) (obstacle_list self) ;;
    if free : bool then
      let self := set_node_list self (node_list self ++ [new_node]) in
      let self :=
        set_SamplingRadius self
          (EuclideanDistanceOfNodes new_node (end_ self)) in
      tip <- py_last (node_list self) ;;
      if Rle_dec (calc_dist_to_goal self (x tip) (y tip)) (expand_dis self)
      then
        final_node <- steer self tip (end_ self) (expand_dis self) ;;
        final_free <- check_collision (Some final_node) (obstacle_list self) ;;
        if final_free : bool then
          path <- generate_final_course self (length (node_list self) - 1) ;;
          Ok (Return path, self)
        else Ok (Continue, self)
      else Ok (Continue, self)
    else
      let self :=
        set_SamplingRadius self
          (SamplingRadius self + ExpansionCoeff self * ExpansionEps self) in
      Ok (Continue, self).

(** [for i in range(max_iter)], with [budget] turns left, and the
    [return None] after it. *)
Fixpoint planning_loop (budget : nat) (self : RRT.t) (rs : Gen)
  : Py (option (list (R * R)) * RRT.t * Gen) :=
  match budget with
  | O => Ok (None, self, rs)
  | S budget' =>
      let (rnd_node, rs1) := get_random_node self rs in
      '(flow, self1) <- planning_body self rnd_node ;;
      match flow with
      | Return path => Ok (Some path, self1, rs1)
      | Continue => planning_loop budget' self1 rs1
      end
  end.

(** [RRT.planning]: the path or [None], with the planner and the generator
    as the call leaves them. *)
Definition planning (self : RRT.t) (rs : Gen)
  : Py (option (list (R * R)) * RRT.t * Gen) :=
  let self := set_node_list self [start self] in
  planning_loop (Z.to_nat (max_iter self)) self rs.

(** The planner and the generator after [k] turns of the loop, when none of
    them returned or raised. *)
Fixpoint after_turns (k : nat) (self : RRT.t) (rs : Gen)
  : option (RRT.t * Gen) :=
  match k with
  | O => Some (self, rs)
  | S k' =>
      let (rnd_node, rs1) := get_random_node self rs in
      match planning_body self rnd_node with
      | Ok (Continue, self1) => after_turns k' self1 rs1
      | _ => None
      end
  end.

End Planner.

(** ** The same turn of the loop over binary64 floats *)

Module Binary64.

Import PrimFloat SpecFloat FloatOps.
#[local] Set Warnings "-inexact-float".
Local Open Scope float_scope.

(** A call that raises, or that asks the [math] library for a value this
    module does not define (see [cos] below), gives [None]. *)
Notation "v <~ m ;; k" := (match m with Some v => k | None => None end)
  (at level 61, m at next level, right associativity, only parsing).
Notation "' p <~ m ;; k" :=
  (match m with Some v => let p := v in k | None => None end)
  (at level 61, p pattern, m at next level, right associativity,
   only parsing).

(** [a / b] on floats: [ZeroDivisionError] when [b] is a zero. *)
Definition py_div (a b : float) : option float :=
  if b =? 0 then None else Some (a / b).

(** [math.floor]: the largest integer not above a finite float, which is
    [m * 2 ^ e] up to its sign; it raises on an infinity and on a NaN. *)
Definition floor (q : float) : option Z :=
  match Prim2SF q with
  | S754_zero _ => Some 0%Z
  | S754_finite s m e => Some (Z.shiftl (if s then Z.neg m else Z.pos m) e)
  | S754_infinity _ | S754_nan => None
  end.

(** [math.cos], [math.sin], [math.atan2] and [math.hypot], at the
    arguments where the result is exact and the same on every platform
    (C99, Annex F.9, which Python's [math] follows): [cos(0) = 1],
    [sin(0) = 0], [atan2(0, a) = 0] for [a > 0] and [hypot(a, 0) = |a|] (a
    zero result has the sign of the zero argument).  This covers steering
    along the x axis.  Elsewhere the results depend on the library, and
    the four functions are left undefined. *)
Definition cos (theta : float) : option float :=
  if theta =? 0 then Some 1 else None.

Definition sin (theta : float) : option float :=
  if theta =? 0 then Some theta else None.

Definition atan2 (b a : float) : option float :=
  if (b =? 0) && (0 <? a) then Some b else None.

Definition hypot (a b : float) : option float :=
  if b =? 0 then Some (abs a) else None.

(** [min(l)]: the first of the smallest items; [ValueError] on []. *)
Definition py_min (l : list float) : option float :=
  match l with
  | [] => None
  | a :: l' => Some (fold_left (fun m v => if v <? m then v else m) l' a)
  end.

(** [l.index(v)] *)
Fixpoint py_index (v : float) (l : list float) : option nat :=
  match l with
  | [] => None
  | a :: l' => if a =? v then Some O else i <~ py_index v l' ;; Some (S i)
  end.

(** class Node.  The ints that [main] passes for coordinates and sizes are
    the floats of the same value: they are small, and every operation that
    mixes an int and a float converts the int first. *)
#[warnings="-register-all"] Inductive Node : Type :=
  mkNode { x : float;
           y : float;
           path_x : list float;
           path_y : list float;
           parent : option Node }.

Definition Node_init (x0 y0 : float) : Node :=
  mkNode x0 y0 [] [] None.

Definition Obstacle : Type := (float * float * float)%type.

(** The attributes of a planner that a turn of the loop reads or writes. *)
Record t : Type :=
  mk { start : Node;
       end_ : Node;
       expand_dis : float;
       path_resolution : float;
       obstacle_list : list Obstacle;
       node_list : list Node;
       SamplingRadius : float;
       ExpansionCoeff : float;
       ExpansionEps : float }.

Definition InflationRadius : float := 0.8.

(** [EuclideanDistanceOfNodes]; here and below [v ** 2] is the rounded
    product [v * v]. *)
Definition EuclideanDistanceOfNodes (start0 end0 : Node) : float :=
  sqrt ((y end0 - y start0) * (y end0 - y start0)
        + (x end0 - x start0) * (x end0 - x start0)).

(** [RRT.__init__]: what it sets of the attributes above. *)
Definition __init__ (start0 goal : float * float)
    (obstacle_list0 : list Obstacle) (expand_dis0 path_resolution0 : float)
  : t :=
  let s := Node_init (fst start0) (snd start0) in
  let e := Node_init (fst goal) (snd goal) in
  {| start := s;
     end_ := e;
     expand_dis := expand_dis0;
     path_resolution := path_resolution0;
     obstacle_list := obstacle_list0;
     node_list := [];
     SamplingRadius := EuclideanDistanceOfNodes s e;
     ExpansionCoeff := 2;
     ExpansionEps := 0.3 |}.

Definition set_node_list (self : t) (l : list Node) : t :=
  {| start := start self; end_ := end_ self;
     expand_dis := expand_dis self; path_resolution := path_resolution self;
     obstacle_list := obstacle_list self;
     node_list := l;
     SamplingRadius := SamplingRadius self;
     ExpansionCoeff := ExpansionCoeff self;
     ExpansionEps := ExpansionEps self |}.

Definition set_SamplingRadius (self : t) (r : float) : t :=
  {| start := start self; end_ := end_ self;
     expand_dis := expand_dis self; path_resolution := path_resolution self;
     obstacle_list := obstacle_list self;
     node_list := node_list self;
     SamplingRadius := r;
     ExpansionCoeff := ExpansionCoeff self;
     ExpansionEps := ExpansionEps self |}.

(** [RRT.calc_distance_and_angle] *)
Definition calc_distance_and_angle (from_node to_node : Node)
  : option (float * float) :=
  let dx := x to_node - x from_node in
  let dy := y to_node - y from_node in
  d <~ hypot dx dy ;;
  theta <~ atan2 dy dx ;;
  Some (d, theta).

(** One turn of the loop of [steer]. *)
Definition steer_step (self : t) (theta : float) (new_node : Node)
  : option Node :=
  c <~ cos theta ;;
  let x1 := x new_node + path_resolution self * c in
  s <~ sin theta ;;
  let y1 := y new_node + path_resolution self * s in
  Some (mkNode x1 y1 (path_x new_node ++ [x1]) (path_y new_node ++ [y1])
               (parent new_node)).

(** [for _ in range(n_expand)] *)
Fixpoint steer_loop (self : t) (theta : float) (n : nat) (new_node : Node)
  : option Node :=
  match n with
  | O => Some new_node
  | S n' =>
      new_node <~ steer_step self theta new_node ;;
      steer_loop self theta n' new_node
  end.

(** [RRT.steer] *)
Definition steer (self : t) (from_node to_node : Node) (extend_length : float)
  : option Node :=
  let new_node := Node_init (x from_node) (y from_node) in
  '(d, theta) <~ calc_distance_and_angle new_node to_node ;;
  let new_node :=
    mkNode (x new_node) (y new_node) [x new_node] [y new_node]
           (parent new_node) in
  let extend_length := if d <? extend_length then d else extend_length in
  q <~ py_div extend_length (path_resolution self) ;;
  n_expand <~ floor q ;;
  new_node <~ steer_loop self theta (Z.to_nat n_expand) new_node ;;
  '(d, _) <~ calc_distance_and_angle new_node to_node ;;
  let new_node :=
    if d <=? path_resolution self
    then mkNode (x new_node) (y new_node)
                (path_x new_node ++ [x to_node])
                (path_y new_node ++ [y to_node])
                (parent new_node)
    else new_node in
  Some (mkNode (x new_node) (y new_node) (path_x new_node) (path_y new_node)
               (Some from_node)).

(** [RRT.get_nearest_node_index] *)
Definition get_nearest_node_index (node_list0 : list Node) (rnd_node : Node)
  : option nat :=
  let dlist :=
    map (fun node => (x node - x rnd_node) * (x node - x rnd_node)
                     + (y node - y rnd_node) * (y node - y rnd_node))
        node_list0 in
  m <~ py_min dlist ;;
  py_index m dlist.

Definition d_list (node : Node) (ox oy : float) : list float :=
  let dx_list := map (fun x0 => ox - x0) (path_x node) in
  let dy_list := map (fun y0 => oy - y0) (path_y node) in
  map (fun '(dx, dy) => dx * dx + dy * dy) (combine dx_list dy_list).

(** [RRT.check_collision] on a node that is not [None]. *)
Fixpoint check_collision (node : Node) (obstacleList : list Obstacle)
  : option bool :=
  match obstacleList with
  | [] => Some true
  | (ox, oy, size) :: rest =>
      m <~ py_min (d_list node ox oy) ;;
      if m <=? (size + InflationRadius) * (size + InflationRadius)
      then Some false
      else check_collision node rest
  end.

(** How lines 76 to 89 of a turn end: the sample is discarded, the steered
    node is in collision, or it is appended. *)
Inductive Turn : Type :=
| Discarded
| Collided
| Appended (new_node : Node).

(** Lines 76 to 89 of the body of the loop of [planning], for the sample
    [rnd_node]: all that the body does to the tree and to the sampling
    radius. *)
Definition turn (self : t) (rnd_node : Node) : option (Turn * t) :=
  if SamplingRadius self <? EuclideanDistanceOfNodes (end_ self) rnd_node
  then Some (Discarded, self)
  else
    nearest_ind <~ get_nearest_node_index (node_list self) rnd_node ;;
    nearest_node <~ nth_error (node_list self) nearest_ind ;;
    new_node <~ steer self nearest_node rnd_node (expand_dis self) ;;
    free <~ check_collision new_node (obstacle_list self) ;;
    if free : bool then
      let self := set_node_list self (node_list self ++ [new_node]) in
      let self :=
        set_SamplingRadius self
          (EuclideanDistanceOfNodes new_node (end_ self)) in
      Some (Appended new_node, self)
    else
      let self :=
        set_SamplingRadius self
          (SamplingRadius self + ExpansionCoeff self * ExpansionEps self) in
      Some (Collided, self).

(** The obstacles of [main]. *)
Definition main_obstacleList : list Obstacle :=
  [(5, 5, 1); (3, 6, 2); (3, 8, 2); (3, 10, 2); (7, 5, 2); (9, 5, 2);
   (8, 10, 1)].

(** The planner of [main] when the loop of [planning] begins. *)
Definition main_rrt : t :=
  let rrt := __init__ (-5, -8) (6, 10) main_obstacleList 0.8 0.2 in
  set_node_list rrt [start rrt].

(** A planner with the defaults of [__init__], its start at the centre of
    an obstacle and its goal five units away, when the loop begins. *)
Definition blocked_rrt : t :=
  let rrt := __init__ (0, 0) (5, 0) [(0, 0, 1)] 0.8 0.2 in
  set_node_list rrt [start rrt].

End Binary64.

(** ** Vocabulary of the properties *)

(** [m] is a smallest item of [l]. *)
Definition is_minimum (m : R) (l : list R) : Prop :=
  In m l /\ forall d, In d l -> m <= d.

(** The squared Euclidean distance between the positions of two nodes. *)
Definition squared_distance (a b : Node) : R :=
  (x a - x b) ^ 2 + (y a - y b) ^ 2.

(** The points recorded in a node, as [zip(node.path_x, node.path_y)]
    pairs them. *)
Definition path_points (node : Node) : list (R * R) :=
  combine (path_x node) (path_y node).

(** The squared distances from the centre [(ox, oy)] to the points [pts]. *)
Definition squared_distances (ox oy : R) (pts : list (R * R)) : list R :=
  map (fun p => (ox - fst p) ^ 2 + (oy - snd p) ^ 2) pts.

(** The planner of [main], for a goal at [(gx, gy)] and the obstacles
    [obstacleList]. *)
Definition main_rrt (gx gy : R) (obstacleList : list Obstacle) : RRT.t :=
  __init__ (-5, -8) (gx, gy) obstacleList (-15, 15)
           Defaults.expand_dis Defaults.path_resolution
           Defaults.goal_sample_rate Defaults.max_iter.

(** A generator that replays a script: [randint] returns the next integer
    of [ints], [uniform] the next real of [reals] (the lower bound once the
    script is exhausted). *)
Record Script : Type :=
  { ints : list Z;
    reals : list R }.

#[export] Instance Script_random : Random Script :=
  { randint lo hi s :=
      match ints s with
      | k :: rest => (k, {| ints := rest; reals := reals s |})
      | [] => (lo, s)
      end;
    uniform lo hi s :=
      match reals s with
      | u :: rest => (u, {| ints := ints s; reals := rest |})
      | [] => (lo, s)
      end }.

(** The values [random.randint(0, 100)] can return: 0, 1, ..., 100. *)
Definition randint_0_100_outcomes : list Z :=
  map Z.of_nat (seq 0 101).

(** Whether [get_random_node] returns on the goal branch when [randint]
    draws [k]: it then leaves the two reals of the script unread. *)
Definition goal_branch_taken (self : RRT.t) (k : Z) : bool :=
  let rs := {| ints := [k]; reals := [0; 0] |} in
  Nat.eqb (length (reals (snd (get_random_node self rs)))) 2.

(** The planner after a turn that appended [new_node]. *)
Definition extended (self : RRT.t) (new_node : Node) : RRT.t :=
  set_SamplingRadius
    (set_node_list self (node_list self ++ [new_node]))
    (EuclideanDistanceOfNodes new_node (end_ self)).

(** The planner after a turn whose steered node was in collision. *)
Definition relaxed (self : RRT.t) : RRT.t :=
  set_SamplingRadius self
    (SamplingRadius self + ExpansionCoeff self * ExpansionEps self).

(** The steered node of a turn is in collision: the sample [rnd_node] is
    within the sampling radius, the node steered towards it from its nearest
    node is [new_node], and [check_collision] answers [False] for it. *)
Definition steered_in_collision (self : RRT.t) (rnd_node : Node) : Prop :=
  ~ EuclideanDistanceOfNodes (end_ self) rnd_node > SamplingRadius self /\
  exists nearest_ind nearest_node new_node,
    get_nearest_node_index (node_list self) rnd_node = Ok nearest_ind /\
    py_getitem (node_list self) nearest_ind = Ok nearest_node /\
    steer self nearest_node rnd_node (expand_dis self) = Ok new_node /\
    check_collision (Some new_node) (obstacle_list self) = Ok false.

(** The number of steps [steer] takes. *)
Definition n_expand (self : RRT.t) (from_node to_node : Node)
    (extend_length : R) : Z :=
  let d := fst (calc_distance_and_angle from_node to_node) in
  Zfloor ((if Rgt_dec extend_length d then d else extend_length)
          / path_resolution self).

(** The planner after [n] turns that all ended in collision. *)
Fixpoint relaxed_times (n : nat) (self : RRT.t) : RRT.t :=
  match n with
  | O => self
  | S n' => relaxed_times n' (relaxed self)
  end.

(** The planner of [main] with its start inside an obstacle and a budget
    of three turns. *)
Definition blocked_rrt : RRT.t :=
  __init__ (-5, -8) (6, 10) [(-5, -8, 1)] (-15, 15)
           Defaults.expand_dis Defaults.path_resolution
           Defaults.goal_sample_rate 3.

(** The tree invariant: the first node is [start0] and has no parent, and
    every later node has for parent a node at a lower index. *)
Definition tree_invariant (start0 : Node) (l : list Node) : Prop :=
  nth_error l 0 = Some start0 /\
  parent start0 = None /\
  forall i n, nth_error l (S i) = Some n ->
    exists j p, (j <= i)%nat /\ nth_error l j = Some p /\ parent n = Some p.

(** Every walk up the parents ends at the position of the start. *)
Definition courses_end_at (start0 : Node) (l : list Node) : Prop :=
  forall n, In n l ->
    exists pre, course_from n = pre ++ [(x start0, y start0)].

(** A planner whose goal is half a unit from its start, with no obstacle
    and a budget of ten turns. *)
Definition near_goal_rrt : RRT.t :=
  __init__ (0, 0) (0.5, 0) [] (-15, 15)
           Defaults.expand_dis Defaults.path_resolution
           Defaults.goal_sample_rate 10.

(** The node the first turn steers to when it samples the goal. *)
Definition near_goal_node : Node :=
  mkNode 0.4 0 [0; 0.2; 0.4; 0.5] [0; 0; 0; 0] (Some (start near_goal_rrt)).

(** The [i]-th point on the way from [from_node] along [theta], in steps of
    [path_resolution], in closed form: where [walked_point] is in exact
    arithmetic. *)
Definition ray_point (self : RRT.t) (from_node : Node) (theta : R) (i : nat)
  : R * R :=
  (x from_node + INR i * (path_resolution self * cos theta),
   y from_node + INR i * (path_resolution self * sin theta)).

(** The position after [i] steps of [path_resolution] from [from_node] along
    [theta], each step added to the position the step before it left, as
    the loop of [steer] does. *)
Definition walked_point (self : RRT.t) (from_node : Node) (theta : R)
    (i : nat) : R * R :=
  (Nat.iter i (fun v => v + path_resolution self * cos theta) (x from_node),
   Nat.iter i (fun v => v + path_resolution self * sin theta) (y from_node)).


(** The planner of [near_goal_rrt] with a [path_resolution] of zero. *)
Definition zero_resolution_rrt : RRT.t :=
  __init__ (0, 0) (0.5, 0) [] (-15, 15)
           Defaults.expand_dis 0 Defaults.goal_sample_rate 10.

(** Two planners with the same configuration: all attributes but
    [node_list] and [SamplingRadius]. *)
Definition same_configuration (a b : RRT.t) : Prop :=
  start a = start b /\ end_ a = end_ b /\
  min_rand a = min_rand b /\ max_rand a = max_rand b /\
  expand_dis a = expand_dis b /\ path_resolution a = path_resolution b /\
  goal_sample_rate a = goal_sample_rate b /\ max_iter a = max_iter b /\
  obstacle_list a = obstacle_list b /\
  ExpansionCoeff a = ExpansionCoeff b /\ ExpansionEps a = ExpansionEps b.

(** The planner of [near_goal_rrt] with a step length below the
    resolution, and a budget of three turns. *)
Definition short_step_rrt : RRT.t :=
  __init__ (0, 0) (0.5, 0) [] (-15, 15) 0.1 0.2 Defaults.goal_sample_rate 3.

(** Every hop from a node to its parent, up to the node without a parent,
    is at most [E] long. *)
Fixpoint hops_within (E : R) (node : Node) : Prop :=
  match node with
  | mkNode nx ny _ _ par =>
      match par with
      | Some p =>
          EuclideanDistanceOfNodes (Node_init nx ny) (Node_init (x p) (y p))
          <= E /\ hops_within E p
      | None => True
      end
  end.

(** Every node on the way from [node] up the parents stands where at most
    [m] steps of [path_resolution], along some angle, lead from the
    position of its parent. *)
Fixpoint hops_walked (self : RRT.t) (m : nat) (node : Node) : Prop :=
  match node with
  | mkNode nx ny _ _ par =>
      match par with
      | Some p =>
          (exists theta k,
              (k <= m)%nat /\ (nx, ny) = walked_point self p theta k) /\
          hops_walked self m p
      | None => True
      end
  end.

(** The planner of [near_goal_rrt] with one obstacle, far from the way. *)
Definition far_obstacle_rrt : RRT.t :=
  __init__ (0, 0) (0.5, 0) [(10, 10, 1)] (-15, 15)
           Defaults.expand_dis Defaults.path_resolution
           Defaults.goal_sample_rate 10.

(** * Properties *)

#[local] Arguments pow : simpl never.

(** ** Built-ins *)

Lemma Ok_inj {A : Type} (a b : A) : Ok a = Ok b -> a = b.
Proof. intros H. injection H as ->. reflexivity. Qed.

Lemma bind_Ok {A B : Type} (m : Py A) (k : A -> Py B) (b : B) :
  bind m k = Ok b -> exists a, m = Ok a /\ k a = Ok b.
Proof.
  destruct m as [a | e]; simpl; intros H.
  - exists a. split; [reflexivity | exact H].
  - discriminate H.
Qed.

Lemma fold_min_spec (l : list R) (a : R) :
  let m := fold_left (fun best item => if Rlt_dec item best then item else best)
                     l a in
  (m = a \/ In m l) /\ m <= a /\ forall d, In d l -> m <= d.
Proof.
  revert a. induction l as [| b l IH]; intros a; simpl.
  - split; [left; reflexivity | split; [lra | intros d []]].
  - destruct (Rlt_dec b a) as [Hlt | Hge].
    + destruct (IH b) as [Hin [Hle Hall]].
      split; [| split].
      * destruct Hin as [-> | Hin];
          [right; left; reflexivity | right; right; exact Hin].
      * lra.
      * intros d [<- | Hd]; [exact Hle | apply Hall, Hd].
    + destruct (IH a) as [Hin [Hle Hall]].
      split; [| split].
      * destruct Hin as [-> | Hin];
          [left; reflexivity | right; right; exact Hin].
      * exact Hle.
      * intros d [<- | Hd]; [lra | apply Hall, Hd].
Qed.

Lemma py_min_spec (l : list R) :
  l <> [] -> exists m, py_min l = Ok m /\ is_minimum m l.
Proof.
  destruct l as [| a l]; [intros H; contradiction H; reflexivity |].
  intros _. eexists. split; [reflexivity |].
  destruct (fold_min_spec l a) as [Hin [Hle Hall]].
  split.
  - destruct Hin as [-> | Hin]; [left; reflexivity | right; exact Hin].
  - intros d [<- | Hd]; [exact Hle | apply Hall, Hd].
Qed.

Lemma is_minimum_unique (m m' : R) (l : list R) :
  is_minimum m l -> is_minimum m' l -> m = m'.
Proof.
  intros [Hin Hall] [Hin' Hall'].
  apply Rle_antisym; [apply Hall, Hin' | apply Hall', Hin].
Qed.

Lemma py_index_spec (v : R) (l : list R) :
  In v l ->
  exists i, py_index v l = Ok i /\ nth_error l i = Some v /\
            forall j d, nth_error l j = Some d -> d = v -> (i <= j)%nat.
Proof.
  induction l as [| a l IH]; simpl; [intros [] |].
  intros Hin. destruct (Req_dec_T a v) as [-> | Hne].
  - exists O. split; [reflexivity | split; [reflexivity |]].
    intros j d _ _. lia.
  - destruct Hin as [Heq | Hin]; [contradiction |].
    destruct (IH Hin) as [i [Hi [Hnth Hlow]]].
    exists (S i). rewrite Hi. simpl.
    split; [reflexivity | split; [exact Hnth |]].
    intros [| j] d Hj Hd; simpl in Hj.
    + injection Hj as ->. contradiction.
    + specialize (Hlow j d Hj Hd). lia.
Qed.

(** ** Nearest node (C6) *)

(** What the callers of [get_nearest_node_index] rely on: on a list of at
    least one node it returns an index of the list. *)
Lemma get_nearest_node_index_spec
    (node_list0 : list Node) (rnd_node : Node) :
  node_list0 <> [] ->
  exists i n,
    get_nearest_node_index node_list0 rnd_node = Ok i /\
    (i < length node_list0)%nat /\
    nth_error node_list0 i = Some n.
Proof.
  intros Hne. unfold get_nearest_node_index.
  set (dlist := map _ node_list0).
  assert (Hd : dlist <> []).
  { unfold dlist.
    destruct node_list0; [contradiction Hne; reflexivity | discriminate]. }
  destruct (py_min_spec _ Hd) as [m [Hmin [Hin _]]].
  rewrite Hmin. cbn [bind].
  destruct (py_index_spec m _ Hin) as [i [Hi [Hnth _]]].
  rewrite Hi. cbn [bind].
  assert (Hlt : (i < length node_list0)%nat).
  { assert (Hlen : length dlist = length node_list0) by apply length_map.
    rewrite <- Hlen. apply nth_error_Some. rewrite Hnth. discriminate. }
  destruct (nth_error node_list0 i) as [n |] eqn:Hn.
  - exists i, n. split; [reflexivity |]. split; [exact Hlt | exact Hn].
  - apply nth_error_None in Hn. lia.
Qed.

(** C6: on a list of at least one node, [get_nearest_node_index] returns an
    index of the list whose node is at the least squared Euclidean distance
    from the query point, and no node before it is at that distance. *)
Theorem get_nearest_node_index_lowest_minimum
    (node_list0 : list Node) (rnd_node : Node) :
  node_list0 <> [] ->
  exists i n,
    get_nearest_node_index node_list0 rnd_node = Ok i /\
    (i < length node_list0)%nat /\
    nth_error node_list0 i = Some n /\
    (forall m, In m node_list0 ->
               squared_distance n rnd_node <= squared_distance m rnd_node) /\
    (forall j m, nth_error node_list0 j = Some m ->
                 squared_distance m rnd_node = squared_distance n rnd_node ->
                 (i <= j)%nat).
Proof.
  intros Hne. unfold get_nearest_node_index.
  set (f := fun node : Node =>
              (x node - x rnd_node) ^ 2 + (y node - y rnd_node) ^ 2).
  assert (Hd : map f node_list0 <> []).
  { destruct node_list0; [contradiction Hne; reflexivity | discriminate]. }
  destruct (py_min_spec _ Hd) as [m [Hmin [Hin Hall]]].
  rewrite Hmin. simpl.
  destruct (py_index_spec m _ Hin) as [i [Hi [Hnth Hlow]]].
  rewrite Hi. simpl.
  destruct (nth_error node_list0 i) as [n |] eqn:Hn.
  2:{ rewrite nth_error_map, Hn in Hnth. discriminate Hnth. }
  rewrite nth_error_map, Hn in Hnth. simpl in Hnth.
  injection Hnth as Hfn.
  exists i, n. split; [reflexivity |].
  split; [apply nth_error_Some; rewrite Hn; discriminate |].
  split; [exact Hn |].
  split.
  - intros m' Hm'. unfold squared_distance. fold (f n). fold (f m').
    rewrite Hfn. apply Hall. apply in_map, Hm'.
  - intros j m' Hj Heq. apply (Hlow j (f m')).
    + rewrite nth_error_map, Hj. reflexivity.
    + unfold squared_distance in Heq. fold (f n) in Heq. fold (f m') in Heq.
      rewrite Heq. exact Hfn.
Qed.

Lemma get_nearest_node_index_lowest_minimum_witness :
  let l := [Node_init 3 0; Node_init 1 1; Node_init 1 1] in
  l <> [] /\ get_nearest_node_index l (Node_init 0 0) = Ok 1%nat.
Proof.
  split; [discriminate |].
  destruct (get_nearest_node_index_lowest_minimum
              [Node_init 3 0; Node_init 1 1; Node_init 1 1] (Node_init 0 0))
    as [i [n [Hi [Hlt [Hn [Hmin Hlow]]]]]]; [discriminate |].
  rewrite Hi. f_equal.
  destruct i as [| [| [| i]]]; simpl in Hn, Hlt.
  - injection Hn as <-.
    specialize (Hmin (Node_init 1 1) (or_intror (or_introl eq_refl))).
    unfold squared_distance in Hmin. simpl in Hmin. lra.
  - reflexivity.
  - injection Hn as <-.
    specialize (Hlow 1%nat (Node_init 1 1) eq_refl eq_refl). lia.
  - lia.
Defined.

(** ** Collision test (C2) *)

Lemma d_list_squared_distances (node : Node) (ox oy : R) :
  d_list node ox oy = squared_distances ox oy (path_points node).
Proof.
  unfold d_list, squared_distances, path_points.
  generalize (path_y node). induction (path_x node) as [| a l IH];
    intros [| b l']; simpl; try reflexivity.
  rewrite IH. f_equal. ring.
Qed.

Lemma path_points_nonempty (node : Node) :
  path_x node <> [] -> path_y node <> [] -> path_points node <> [].
Proof.
  unfold path_points.
  destruct (path_x node); [intros H; contradiction H; reflexivity |].
  destruct (path_y node); [intros _ H; contradiction H; reflexivity |].
  discriminate.
Qed.

Lemma check_obstacles_spec (node : Node) (obstacleList : list Obstacle) :
  path_points node <> [] ->
  exists b,
    check_obstacles node obstacleList = Ok b /\
    (b = true <->
     forall ox oy size, In (ox, oy, size) obstacleList ->
       exists m,
         is_minimum m (squared_distances ox oy (path_points node)) /\
         (size + InflationRadius) ^ 2 < m).
Proof.
  intros Hpts.
  induction obstacleList as [| [[ox oy] size] rest IH]; simpl.
  - exists true. split; [reflexivity |].
    split; [intros _ ? ? ? [] | reflexivity].
  - rewrite d_list_squared_distances.
    assert (Hne : squared_distances ox oy (path_points node) <> []).
    { unfold squared_distances.
      destruct (path_points node); [contradiction Hpts; reflexivity |].
      discriminate. }
    destruct (py_min_spec _ Hne) as [m [Hm Hmin]].
    rewrite Hm. simpl.
    destruct (Rle_dec m ((size + InflationRadius) ^ 2)) as [Hle | Hgt].
    + exists false. split; [reflexivity |].
      split; [discriminate |].
      intros Hall.
      destruct (Hall ox oy size (or_introl eq_refl)) as [m' [Hmin' Hlt]].
      rewrite (is_minimum_unique _ _ _ Hmin Hmin') in Hle. lra.
    + destruct IH as [b [Hb Hiff]].
      exists b. split; [exact Hb |].
      rewrite Hiff. split.
      * intros Hall ox' oy' size' [Heq | Hin].
        -- injection Heq as <- <- <-. exists m. split; [exact Hmin | lra].
        -- apply Hall, Hin.
      * intros Hall ox' oy' size' Hin. apply Hall. right. exact Hin.
Qed.

(** C2: for a node with a non-empty recorded path, [check_collision]
    answers, and answers "free" exactly when for every obstacle the least
    squared distance from its centre to the points of the path is greater
    than [(size + InflationRadius) ** 2]; for [None] it answers "not free". *)
Theorem check_collision_min_distance
    (node : Node) (obstacleList : list Obstacle) :
  path_x node <> [] -> path_y node <> [] ->
  check_collision None obstacleList = Ok false /\
  exists b,
    check_collision (Some node) obstacleList = Ok b /\
    (b = true <->
     forall ox oy size, In (ox, oy, size) obstacleList ->
       exists m,
         is_minimum m (squared_distances ox oy (path_points node)) /\
         (size + InflationRadius) ^ 2 < m).
Proof.
  intros Hx Hy. split; [reflexivity |].
  apply check_obstacles_spec, path_points_nonempty; assumption.
Qed.

Lemma check_collision_min_distance_witness :
  let node := mkNode 1 0 [0; 1] [0; 0] None in
  (path_x node <> [] /\ path_y node <> []) /\
  check_collision (Some node) [(1, 0.5, 1)] = Ok false.
Proof.
  split; [split; discriminate |].
  destruct (check_collision_min_distance
              (mkNode 1 0 [0; 1] [0; 0] None) [(1, 0.5, 1)])
    as [_ [b [Hb Hiff]]]; try discriminate.
  rewrite Hb. f_equal.
  destruct b; [| reflexivity].
  destruct (proj1 Hiff eq_refl 1 0.5 1 (or_introl eq_refl))
    as [m [[_ Hall] Hlt]].
  specialize (Hall ((1 - 1) ^ 2 + (0.5 - 0) ^ 2)
                   (or_intror (or_introl eq_refl))).
  unfold InflationRadius in Hlt. lra.
Defined.

(** ** Steering (C5, C10) *)

Lemma hypot_0_0 : hypot 0 0 = 0.
Proof.
  unfold hypot. replace (0 * 0 + 0 * 0) with 0 by ring. apply sqrt_0.
Qed.

Lemma hypot_nonneg (a b : R) : 0 <= hypot a b.
Proof. apply sqrt_pos. Qed.

Lemma Zfloor_nonpos (q : R) : q <= 0 -> Z.to_nat (Zfloor q) = O.
Proof.
  intros Hq. destruct (Zfloor_bound q) as [Hlo _].
  assert (H : (Zfloor q <= 0)%Z) by (apply le_IZR; lra).
  lia.
Qed.

(** Steering from a node to itself: no step is taken, and the target, at
    distance 0 <= [path_resolution], is recorded after the starting point. *)
Lemma steer_same_node (self : RRT.t) (a : Node) (L : R) :
  0 < path_resolution self ->
  steer self a a L =
  Ok (mkNode (x a) (y a) [x a; x a] [y a; y a] (Some a)).
Proof.
  intros Hres. unfold steer, calc_distance_and_angle. simpl.
  replace (x a - x a) with 0 by ring.
  replace (y a - y a) with 0 by ring.
  rewrite hypot_0_0.
  set (e := if Rgt_dec L 0 then 0 else L).
  assert (He : e <= 0).
  { unfold e. destruct (Rgt_dec L 0) as [H | H]; lra. }
  unfold py_div. destruct (Req_dec_T (path_resolution self) 0) as [H0 | _];
    [lra |].
  simpl.
  rewrite Zfloor_nonpos.
  2:{ unfold Rdiv.
      assert (Hinv : 0 < / path_resolution self)
        by (apply Rinv_0_lt_compat; exact Hres).
      nra. }
  simpl.
  replace (x a - x a) with 0 by ring.
  replace (y a - y a) with 0 by ring.
  rewrite hypot_0_0.
  destruct (Rle_dec 0 (path_resolution self)) as [_ | H]; [reflexivity | lra].
Qed.

(** C5, as the code has it: for a positive [path_resolution], steering from
    a node to itself, with any extension bound, returns a node at that
    node's position whose recorded path holds two points, the starting
    position and the target, both equal to that position. *)
Theorem steer_zero_distance (self : RRT.t) (a : Node) (L : R) :
  0 < path_resolution self ->
  exists n,
    steer self a a L = Ok n /\
    x n = x a /\ y n = y a /\
    path_points n = [(x a, y a); (x a, y a)] /\
    parent n = Some a.
Proof.
  intros Hres. eexists. split; [apply steer_same_node, Hres |].
  repeat split.
Qed.

Lemma main_rrt_path_resolution (gx gy : R) (obs : list Obstacle) :
  0 < path_resolution (main_rrt gx gy obs).
Proof. simpl. unfold Defaults.path_resolution. lra. Qed.

Lemma steer_zero_distance_witness :
  let self := main_rrt 6 10 [] in
  0 < path_resolution self /\
  exists n,
    steer self (start self) (start self) 0.8 = Ok n /\
    x n = -5 /\ y n = -8 /\
    path_points n = [(-5, -8); (-5, -8)] /\
    parent n = Some (start self).
Proof.
  split; [apply main_rrt_path_resolution |].
  apply (steer_zero_distance (main_rrt 6 10 []) (start (main_rrt 6 10 [])) 0.8).
  apply main_rrt_path_resolution.
Defined.

(** C5 as stated fails: with the default [path_resolution], the zero-distance
    steer from the start of [main] records two points, not one. *)
Lemma steer_zero_distance_not_single_point :
  let self := main_rrt 6 10 [] in
  ~ (exists n,
       steer self (start self) (start self) 0.8 = Ok n /\
       x n = x (start self) /\ y n = y (start self) /\
       length (path_points n) = 1%nat).
Proof.
  intros self [n [Hn [_ [_ Hlen]]]].
  unfold self in Hn.
  rewrite (steer_same_node _ _ _ (main_rrt_path_resolution 6 10 [])) in Hn.
  injection Hn as <-. simpl in Hlen. discriminate Hlen.
Qed.

(** ** Sampling (C4) *)

(** What [get_random_node] does with the integer it draws: at most
    [goal_sample_rate], the goal is returned and nothing else is drawn;
    above it, the two coordinates are drawn. *)
Lemma get_random_node_branches
    {Gen : Type} {random : Random Gen} (self : RRT.t) (rs : Gen) :
  let (k, rs1) := randint 0 100 rs in
  ((k <= goal_sample_rate self)%Z ->
   get_random_node self rs
   = (Node_init (x (end_ self)) (y (end_ self)), rs1)) /\
  ((k > goal_sample_rate self)%Z ->
   get_random_node self rs = uniform_node self rs1).
Proof.
  unfold get_random_node. simpl.
  destruct (randint 0 100 rs) as [k rs1].
  destruct (Z.gtb_spec k (goal_sample_rate self)) as [Hgt | Hle].
  - split; [lia | reflexivity].
  - split; [reflexivity | lia].
Qed.

Lemma goal_branch_taken_iff (self : RRT.t) (k : Z) :
  goal_branch_taken self k = true <-> (k <= goal_sample_rate self)%Z.
Proof.
  unfold goal_branch_taken, get_random_node, uniform_node. simpl.
  destruct (Z.gtb_spec k (goal_sample_rate self)) as [Hgt | Hle]; simpl.
  - split; [discriminate | lia].
  - split; [intros _; exact Hle | reflexivity].
Qed.

Lemma filter_leb_seq (r n : nat) :
  (r < n)%nat ->
  filter (fun k => Nat.leb k r) (seq 0 n) = seq 0 (S r).
Proof.
  intros Hr.
  replace n with (S r + (n - S r))%nat by lia.
  rewrite seq_app, filter_app.
  rewrite (forallb_filter_id (fun k => Nat.leb k r) (seq 0 (S r))).
  2:{ apply forallb_forall. intros k Hk. apply in_seq in Hk.
      apply Nat.leb_le. lia. }
  rewrite (filter_ext_in (fun k => Nat.leb k r) (fun _ => false)).
  - rewrite filter_false. apply app_nil_r.
  - intros k Hk. apply in_seq in Hk. apply Nat.leb_gt. lia.
Qed.

(** For every rate from 0 to 100, one outcome more than the rate takes the
    goal branch. *)
Lemma goal_branch_count (self : RRT.t) :
  (0 <= goal_sample_rate self <= 100)%Z ->
  length (filter (goal_branch_taken self) randint_0_100_outcomes)
  = S (Z.to_nat (goal_sample_rate self)).
Proof.
  intros Hrate. unfold randint_0_100_outcomes.
  rewrite filter_map_swap, length_map.
  rewrite (filter_ext_in _
             (fun k => Nat.leb k (Z.to_nat (goal_sample_rate self)))).
  - rewrite filter_leb_seq by lia. apply length_seq.
  - intros k _.
    destruct (Nat.leb_spec k (Z.to_nat (goal_sample_rate self))) as [H | H].
    + apply goal_branch_taken_iff. lia.
    + destruct (goal_branch_taken self (Z.of_nat k)) eqn:Hb;
        [| reflexivity].
      apply goal_branch_taken_iff in Hb. lia.
Qed.

(** C4, on the code: with [goal_sample_rate = 5], the default, 6 of the 101
    equally likely values of [random.randint(0, 100)] take the goal branch
    (0, 1, ..., 5), so the goal is sampled with probability 6/101, not
    5/100. *)
Theorem get_random_node_goal_draws :
  let self := main_rrt 6 10 [] in
  goal_sample_rate self = 5%Z /\
  length randint_0_100_outcomes = 101%nat /\
  filter (goal_branch_taken self) randint_0_100_outcomes
  = [0; 1; 2; 3; 4; 5]%Z.
Proof.
  split; [reflexivity |]. split; [reflexivity |].
  vm_compute. reflexivity.
Qed.

(** ** The planning loop *)

Section PlanningLoop.

Context {Gen : Type} {random : Random Gen}.

Lemma planning_loop_S (budget : nat) (self : RRT.t) (rs : Gen) :
  planning_loop (S budget) self rs =
  let (rnd_node, rs1) := get_random_node self rs in
  '(flow, self1) <- planning_body self rnd_node ;;
  match flow with
  | Return path => Ok (Some path, self1, rs1)
  | Continue => planning_loop budget self1 rs1
  end.
Proof. reflexivity. Qed.

Lemma after_turns_S (k : nat) (self : RRT.t) (rs : Gen) :
  after_turns (S k) self rs =
  let (rnd_node, rs1) := get_random_node self rs in
  match planning_body self rnd_node with
  | Ok (Continue, self1) => after_turns k self1 rs1
  | _ => None
  end.
Proof. reflexivity. Qed.

(** *** Samples outside the sampling radius (C8) *)

(** C8: when the sample drawn in a turn of the loop is farther from the goal
    than the sampling radius, the body ends with the planner as it was (node
    list and sampling radius included), and the loop goes on with one turn
    less in its budget. *)
Theorem planning_discards_sample_outside_radius
    (budget : nat) (self : RRT.t) (rs rs1 : Gen) (rnd_node : Node) :
  get_random_node self rs = (rnd_node, rs1) ->
  EuclideanDistanceOfNodes (end_ self) rnd_node > SamplingRadius self ->
  planning_body self rnd_node = Ok (Continue, self) /\
  planning_loop (S budget) self rs = planning_loop budget self rs1.
Proof.
  intros Hrnd Hfar.
  assert (Hbody : planning_body self rnd_node = Ok (Continue, self)).
  { unfold planning_body.
    destruct (Rgt_dec (EuclideanDistanceOfNodes (end_ self) rnd_node)
                      (SamplingRadius self)) as [_ | Hn];
      [reflexivity | contradiction]. }
  split; [exact Hbody |].
  rewrite planning_loop_S, Hrnd, Hbody. reflexivity.
Qed.

End PlanningLoop.

Lemma planning_discards_sample_outside_radius_witness :
  let self := set_node_list (main_rrt 6 10 []) [start (main_rrt 6 10 [])] in
  let rs := {| ints := [50%Z; 0%Z]; reals := [-15; -15] |} in
  let rs1 := {| ints := [0%Z]; reals := [] |} in
  let rnd_node := Node_init (-15) (-15) in
  (get_random_node self rs = (rnd_node, rs1) /\
   EuclideanDistanceOfNodes (end_ self) rnd_node > SamplingRadius self) /\
  planning_body self rnd_node = Ok (Continue, self) /\
  planning_loop 3 self rs = planning_loop 2 self rs1.
Proof.
  assert (Hfar :
    EuclideanDistanceOfNodes
      (end_ (set_node_list (main_rrt 6 10 []) [start (main_rrt 6 10 [])]))
      (Node_init (-15) (-15))
    > SamplingRadius
        (set_node_list (main_rrt 6 10 []) [start (main_rrt 6 10 [])])).
  { unfold EuclideanDistanceOfNodes. simpl.
    apply Rlt_gt, sqrt_lt_1_alt. simpl. lra. }
  split; [split; [reflexivity | exact Hfar] |].
  apply (planning_discards_sample_outside_radius
           2 (set_node_list (main_rrt 6 10 []) [start (main_rrt 6 10 [])])
           {| ints := [50%Z; 0%Z]; reals := [-15; -15] |}
           {| ints := [0%Z]; reals := [] |}
           (Node_init (-15) (-15)));
    [reflexivity | exact Hfar].
Defined.

(** *** The ways through the body of the loop *)

Lemma py_getitem_Ok {A : Type} (l : list A) (i : nat) (a : A) :
  py_getitem l i = Ok a <-> nth_error l i = Some a.
Proof.
  unfold py_getitem. destruct (nth_error l i) as [b |].
  - split; intros H; injection H as ->; reflexivity.
  - split; discriminate.
Qed.

Lemma py_last_app {A : Type} (l : list A) (a : A) :
  py_last (l ++ [a]) = Ok a.
Proof.
  unfold py_last. apply py_getitem_Ok.
  rewrite length_app. simpl.
  replace (length l + 1 - 1)%nat with (length l) by lia.
  rewrite nth_error_app2 by lia.
  rewrite Nat.sub_diag. reflexivity.
Qed.

(** After an append, the body goes on with the planner [extended self
    new_node], whose last node is [new_node]. *)
Tactic Notation "fold_extended" constr(self) constr(new_node) :=
  cbv beta zeta;
  change (set_SamplingRadius
            (set_node_list self (node_list self ++ [new_node]))
            (EuclideanDistanceOfNodes new_node
               (end_ (set_node_list self (node_list self ++ [new_node])))))
    with (extended self new_node);
  change (node_list (extended self new_node))
    with (node_list self ++ [new_node]) at 1.

Tactic Notation "fold_extended" constr(self) constr(new_node)
    "in" hyp(H) :=
  cbv beta zeta in H;
  change (set_SamplingRadius
            (set_node_list self (node_list self ++ [new_node]))
            (EuclideanDistanceOfNodes new_node
               (end_ (set_node_list self (node_list self ++ [new_node])))))
    with (extended self new_node) in H;
  change (node_list (extended self new_node))
    with (node_list self ++ [new_node]) in H.

Lemma generate_final_course_extended (self : RRT.t) (new_node : Node) :
  generate_final_course (extended self new_node)
    (length (node_list (extended self new_node)) - 1)
  = Ok ((x (end_ self), y (end_ self)) :: course_from new_node).
Proof.
  unfold generate_final_course.
  change (py_getitem (node_list (extended self new_node))
            (length (node_list (extended self new_node)) - 1))
    with (py_last (node_list self ++ [new_node])).
  rewrite py_last_app. reflexivity.
Qed.

Lemma planning_body_cases
    (self : RRT.t) (rnd_node : Node) (flow : Flow) (self1 : RRT.t) :
  planning_body self rnd_node = Ok (flow, self1) ->
  (EuclideanDistanceOfNodes (end_ self) rnd_node > SamplingRadius self /\
   flow = Continue /\ self1 = self)
  \/
  (~ EuclideanDistanceOfNodes (end_ self) rnd_node > SamplingRadius self /\
   exists nearest_ind nearest_node new_node,
     get_nearest_node_index (node_list self) rnd_node = Ok nearest_ind /\
     nth_error (node_list self) nearest_ind = Some nearest_node /\
     steer self nearest_node rnd_node (expand_dis self) = Ok new_node /\
     ((check_collision (Some new_node) (obstacle_list self) = Ok false /\
       flow = Continue /\ self1 = relaxed self)
      \/
      (check_collision (Some new_node) (obstacle_list self) = Ok true /\
       self1 = extended self new_node /\
       (flow = Continue \/
        flow = Return ((x (end_ self), y (end_ self))
                         :: course_from new_node))))).
Proof.
  unfold planning_body.
  destruct (Rgt_dec (EuclideanDistanceOfNodes (end_ self) rnd_node)
                    (SamplingRadius self)) as [Hfar | Hnear].
  - intros H. injection H as <- <-. left. repeat split. exact Hfar.
  - intros H. right. split; [exact Hnear |].
    apply bind_Ok in H. destruct H as [nearest_ind [Hind H]].
    apply bind_Ok in H. destruct H as [nearest_node [Hnode H]].
    apply bind_Ok in H. destruct H as [new_node [Hnew H]].
    apply bind_Ok in H. destruct H as [free [Hfree H]].
    exists nearest_ind, nearest_node, new_node.
    split; [exact Hind |].
    split; [apply py_getitem_Ok, Hnode |].
    split; [exact Hnew |].
    destruct free.
    + right. split; [exact Hfree |].
      fold_extended self new_node in H.
      rewrite py_last_app in H. simpl bind in H.
      destruct (Rle_dec _ _) as [_ | _] in H.
      * apply bind_Ok in H. destruct H as [final_node [_ H]].
        apply bind_Ok in H. destruct H as [final_free [_ H]].
        destruct final_free.
        -- apply bind_Ok in H. destruct H as [path [Hpath H]].
           injection H as <- <-.
           split; [reflexivity |]. right.
           rewrite generate_final_course_extended in Hpath.
           injection Hpath as <-. reflexivity.
        -- injection H as <- <-. split; [reflexivity | left; reflexivity].
      * injection H as <- <-. split; [reflexivity | left; reflexivity].
    + left. split; [exact Hfree |].
      injection H as <- <-. split; reflexivity.
Qed.

Lemma planning_body_collision (self : RRT.t) (rnd_node : Node) :
  steered_in_collision self rnd_node ->
  planning_body self rnd_node = Ok (Continue, relaxed self).
Proof.
  intros [Hnear [i [nearest [new_node [Hi [Hnode [Hnew Hfree]]]]]]].
  unfold planning_body.
  destruct (Rgt_dec (EuclideanDistanceOfNodes (end_ self) rnd_node)
                    (SamplingRadius self)) as [Hfar | _];
    [contradiction |].
  rewrite Hi. cbn [bind]. rewrite Hnode. cbn [bind].
  rewrite Hnew. cbn [bind]. rewrite Hfree. reflexivity.
Qed.

(** *** Consecutive collisions (C3) *)

Section Collisions.

Context {Gen : Type} {random : Random Gen}.

(** C3: from any point of a run, if each of the next [N] turns of the loop
    has its steered node in collision, then after them the sampling radius
    is what [N] executions of line 88 make of it: [ExpansionCoeff *
    ExpansionEps] added [N] times, one after the other, to the radius
    before them, whatever the samples were (and the node list is what it
    was). *)
Theorem sampling_radius_after_collisions
    (N : nat) (self : RRT.t) (rs : Gen) :
  (forall k, (k < N)%nat ->
     exists self_k rs_k,
       after_turns k self rs = Some (self_k, rs_k) /\
       steered_in_collision self_k (fst (get_random_node self_k rs_k))) ->
  exists self_N rs_N,
    after_turns N self rs = Some (self_N, rs_N) /\
    SamplingRadius self_N
    = Nat.iter N (fun r => r + ExpansionCoeff self * ExpansionEps self)
               (SamplingRadius self) /\
    node_list self_N = node_list self.
Proof.
  revert self rs. induction N as [| N IH]; intros self rs Hall.
  - exists self, rs. repeat split.
  - destruct (Hall O (Nat.lt_0_succ N)) as [self0 [rs0 [H0 Hcol]]].
    simpl in H0. injection H0 as <- <-.
    apply planning_body_collision in Hcol.
    destruct (get_random_node self rs) as [rnd_node rs1] eqn:Hrnd.
    simpl in Hcol.
    assert (Hstep : forall k,
               after_turns (S k) self rs = after_turns k (relaxed self) rs1).
    { intros k. rewrite after_turns_S, Hrnd, Hcol. reflexivity. }
    destruct (IH (relaxed self) rs1) as [self_N [rs_N [HN [Hrad Hlist]]]].
    { intros k Hk. rewrite <- Hstep. apply Hall. lia. }
    exists self_N, rs_N. rewrite Hstep.
    split; [exact HN |]. split; [| exact Hlist].
    rewrite Hrad, Nat.iter_succ_r. reflexivity.
Qed.

End Collisions.

(** In exact arithmetic [N] additions of [s] amount to one addition of
    [N * s]. *)
Lemma iter_add_closed_form (N : nat) (r s : R) :
  Nat.iter N (fun v => v + s) r = r + INR N * s.
Proof.
  induction N as [| N IH]; [simpl; ring |].
  rewrite Nat.iter_succ, IH, S_INR. ring.
Qed.

(** In exact arithmetic the [N] additions of C3 amount to one addition of
    [N * ExpansionCoeff * ExpansionEps]. *)
Lemma relaxations_closed_form (N : nat) (r c e : R) :
  Nat.iter N (fun v => v + c * e) r = r + INR N * c * e.
Proof. rewrite iter_add_closed_form. ring. Qed.

Section RoundedRadius.

Import PrimFloat.
#[local] Set Warnings "-inexact-float".
Local Open Scope float_scope.

(** The program adds in binary64, and there the sum of C3 is not the
    closed form.  On [Binary64.blocked_rrt] the start is the centre of an
    obstacle, so every node steered from it is in collision.  Three turns
    in a row that sample the goal take the sampling radius from [5.0] to
    [5.6], [6.199999999999999] and [6.799999999999999], below
    [5.0 + 3 * 2 * 0.3 = 6.8] however the product is bracketed. *)
Lemma sampling_radius_rounded :
  let self0 := Binary64.blocked_rrt in
  let goal := Binary64.Node_init 5 0 in
  let r := Binary64.SamplingRadius self0 in
  let c := Binary64.ExpansionCoeff self0 in
  let e := Binary64.ExpansionEps self0 in
  exists self1 self2 self3 : Binary64.t,
    Binary64.turn self0 goal = Some (Binary64.Collided, self1) /\
    Binary64.turn self1 goal = Some (Binary64.Collided, self2) /\
    Binary64.turn self2 goal = Some (Binary64.Collided, self3) /\
    r = 5 /\
    Binary64.SamplingRadius self1 = 5.6 /\
    Binary64.SamplingRadius self2 = 6.199999999999999 /\
    Binary64.SamplingRadius self3 = 6.799999999999999 /\
    r + 3 * c * e = 6.8 /\
    r + 3 * (c * e) = 6.8 /\
    (Binary64.SamplingRadius self3 <? 6.8) = true.
Proof.
  intros self0 goal r c e.
  exists (Binary64.set_SamplingRadius self0 (r + c * e)),
         (Binary64.set_SamplingRadius self0 (r + c * e + c * e)),
         (Binary64.set_SamplingRadius self0 (r + c * e + c * e + c * e)).
  repeat split; vm_compute; reflexivity.
Qed.

End RoundedRadius.

(** *** What [steer] returns *)

Lemma steer_loop_spec (self : RRT.t) (theta : R) (n : nat) (node : Node) :
  exists lx ly,
    steer_loop self theta n node =
    mkNode (x node + INR n * (path_resolution self * cos theta))
           (y node + INR n * (path_resolution self * sin theta))
           (path_x node ++ lx) (path_y node ++ ly) (parent node) /\
    length lx = n /\ length ly = n.
Proof.
  revert node. induction n as [| n IH]; intros node.
  - exists [], []. simpl. rewrite !app_nil_r.
    replace (x node + 0 * (path_resolution self * cos theta)) with (x node)
      by ring.
    replace (y node + 0 * (path_resolution self * sin theta)) with (y node)
      by ring.
    destruct node; repeat split.
  - destruct (IH (steer_step self theta node)) as [lx [ly [Heq [Hlx Hly]]]].
    exists ((x node + path_resolution self * cos theta) :: lx),
           ((y node + path_resolution self * sin theta) :: ly).
    split; [| simpl; split; congruence].
    change (steer_loop self theta (S n) node)
      with (steer_loop self theta n (steer_step self theta node)).
    rewrite Heq, S_INR. unfold steer_step. simpl.
    rewrite <- !app_assoc. simpl. f_equal; ring.
Qed.

Lemma steer_spec (self : RRT.t) (from_node to_node : Node) (L : R) :
  path_resolution self <> 0 ->
  let theta := snd (calc_distance_and_angle from_node to_node) in
  let k := Z.to_nat (n_expand self from_node to_node L) in
  exists n tx ty,
    steer self from_node to_node L = Ok n /\
    x n = x from_node + INR k * (path_resolution self * cos theta) /\
    y n = y from_node + INR k * (path_resolution self * sin theta) /\
    path_x n = x from_node :: tx /\
    path_y n = y from_node :: ty /\
    length tx = length ty /\
    parent n = Some from_node.
Proof.
  intros Hres theta k. unfold steer.
  change (calc_distance_and_angle (Node_init (x from_node) (y from_node))
                                  to_node)
    with (calc_distance_and_angle from_node to_node).
  unfold k, n_expand, theta.
  destruct (calc_distance_and_angle from_node to_node) as [d th].
  cbn [fst snd].
  unfold py_div. destruct (Req_dec_T (path_resolution self) 0) as [H0 | _];
    [contradiction |].
  cbn [bind].
  set (e := if Rgt_dec L d then d else L).
  destruct (steer_loop_spec self th
              (Z.to_nat (Zfloor (e / path_resolution self)))
              (mkNode (x (Node_init (x from_node) (y from_node)))
                      (y (Node_init (x from_node) (y from_node)))
                      [x (Node_init (x from_node) (y from_node))]
                      [y (Node_init (x from_node) (y from_node))]
                      (parent (Node_init (x from_node) (y from_node)))))
    as [lx [ly [Heq [Hlx Hly]]]].
  rewrite Heq. cbn [x y path_x path_y parent Node_init].
  destruct (calc_distance_and_angle _ to_node) as [d2 th2].
  destruct (Rle_dec d2 (path_resolution self)) as [Hsnap | Hfar];
    cbn [x y path_x path_y parent].
  - eexists _, (lx ++ [x to_node]), (ly ++ [y to_node]).
    split; [reflexivity |]. repeat split.
    rewrite !length_app. simpl. congruence.
  - eexists _, lx, ly.
    split; [reflexivity |]. repeat split. congruence.
Qed.

Lemma steer_raises (self : RRT.t) (from_node to_node : Node) (L : R) :
  path_resolution self = 0 ->
  steer self from_node to_node L = Raise ZeroDivisionError.
Proof.
  intros Hres. unfold steer.
  destruct (calc_distance_and_angle _ to_node) as [d th].
  unfold py_div. destruct (Req_dec_T (path_resolution self) 0) as [_ | H];
    [reflexivity | contradiction].
Qed.

Lemma check_collision_steered (n : Node) (obs : list Obstacle)
    (a b : R) (tx ty : list R) :
  path_x n = a :: tx -> path_y n = b :: ty ->
  exists free, check_collision (Some n) obs = Ok free.
Proof.
  intros Hx Hy.
  destruct (check_obstacles_spec n obs) as [free [Hfree _]].
  - apply path_points_nonempty; [rewrite Hx | rewrite Hy]; discriminate.
  - exists free. exact Hfree.
Qed.

(** *** The loop never raises on a well-configured planner (C9) *)

Lemma planning_body_total (self : RRT.t) (rnd_node : Node) :
  path_resolution self <> 0 -> node_list self <> [] ->
  exists flow self1, planning_body self rnd_node = Ok (flow, self1).
Proof.
  intros Hres Hlist. unfold planning_body.
  destruct (Rgt_dec _ _) as [_ | _]; [eexists _, _; reflexivity |].
  destruct (get_nearest_node_index_spec (node_list self) rnd_node Hlist)
    as [i [nearest [Hi [_ Hnth]]]].
  rewrite Hi. cbn [bind].
  apply py_getitem_Ok in Hnth. rewrite Hnth. cbn [bind].
  destruct (steer_spec self nearest rnd_node (expand_dis self) Hres)
    as [new_node [tx [ty [Hnew [_ [_ [Hpx [Hpy _]]]]]]]].
  rewrite Hnew. cbn [bind].
  destruct (check_collision_steered new_node (obstacle_list self) _ _ _ _
              Hpx Hpy) as [free Hfree].
  rewrite Hfree. cbn [bind].
  destruct free; [| eexists _, _; reflexivity].
  fold_extended self new_node.
  rewrite py_last_app. cbn [bind].
  destruct (Rle_dec _ _) as [_ | _]; [| eexists _, _; reflexivity].
  destruct (steer_spec (extended self new_node) new_node
              (end_ (extended self new_node))
              (expand_dis (extended self new_node)) Hres)
    as [final_node [fx [fy [Hfinal [_ [_ [Hfx [Hfy _]]]]]]]].
  rewrite Hfinal. cbn [bind].
  destruct (check_collision_steered final_node
              (obstacle_list (extended self new_node)) _ _ _ _ Hfx Hfy)
    as [final_free Hff].
  rewrite Hff. cbn [bind].
  destruct final_free; [| eexists _, _; reflexivity].
  rewrite generate_final_course_extended. cbn [bind].
  eexists _, _. reflexivity.
Qed.

Lemma planning_body_keeps (self : RRT.t) (rnd_node : Node) (flow : Flow)
    (self1 : RRT.t) :
  planning_body self rnd_node = Ok (flow, self1) ->
  start self1 = start self /\ end_ self1 = end_ self /\
  path_resolution self1 = path_resolution self /\
  expand_dis self1 = expand_dis self /\
  ExpansionCoeff self1 = ExpansionCoeff self /\
  ExpansionEps self1 = ExpansionEps self /\
  obstacle_list self1 = obstacle_list self /\
  exists added, node_list self1 = node_list self ++ added.
Proof.
  intros H. apply planning_body_cases in H.
  destruct H as [[_ [_ ->]] | [_ [i [nearest [new_node [_ [_ [_ H]]]]]]]].
  - repeat split. exists []. rewrite app_nil_r. reflexivity.
  - destruct H as [[_ [_ ->]] | [_ [-> _]]].
    + repeat split. exists []. rewrite app_nil_r. reflexivity.
    + repeat split. exists [new_node]. reflexivity.
Qed.

Section Budget.

Context {Gen : Type} {random : Random Gen}.

Lemma planning_loop_total (budget : nat) (self : RRT.t) (rs : Gen) :
  path_resolution self <> 0 -> node_list self <> [] ->
  exists result self1 rs1,
    planning_loop budget self rs = Ok (result, self1, rs1).
Proof.
  revert self rs. induction budget as [| budget IH]; intros self rs Hres Hlist.
  - eexists _, _, _. reflexivity.
  - rewrite planning_loop_S.
    destruct (get_random_node self rs) as [rnd_node rs1].
    destruct (planning_body_total self rnd_node Hres Hlist)
      as [flow [self1 Hbody]].
    rewrite Hbody. cbn [bind].
    destruct flow as [| path]; [| eexists _, _, _; reflexivity].
    destruct (planning_body_keeps _ _ _ _ Hbody)
      as [_ [_ [Hr [_ [_ [_ [_ [added Hadd]]]]]]]].
    apply IH.
    + rewrite Hr. exact Hres.
    + rewrite Hadd. destruct (node_list self);
        [contradiction Hlist; reflexivity | discriminate].
Qed.

Lemma planning_loop_None_iff (budget : nat) (self self1 : RRT.t)
    (rs rs1 : Gen) :
  planning_loop budget self rs = Ok (None, self1, rs1) <->
  after_turns budget self rs = Some (self1, rs1).
Proof.
  revert self rs. induction budget as [| budget IH]; intros self rs.
  - simpl. split; intros H; injection H as <- <-; reflexivity.
  - rewrite planning_loop_S, after_turns_S.
    destruct (get_random_node self rs) as [rnd_node rs2].
    destruct (planning_body self rnd_node) as [[[| path] self2] | e];
      cbn [bind].
    + apply IH.
    + split; discriminate.
    + split; discriminate.
Qed.


End Budget.

(** *** A start inside an inflated obstacle *)

(** The point a node is steered from is the first point of its path, so
    when a tree of one node has that node at the centre of an obstacle,
    every node steered from it is in collision. *)
Lemma blocked_start_collides (self : RRT.t) (s rnd_node : Node) (size : R) :
  node_list self = [s] ->
  path_resolution self <> 0 ->
  In (x s, y s, size) (obstacle_list self) ->
  ~ EuclideanDistanceOfNodes (end_ self) rnd_node > SamplingRadius self ->
  steered_in_collision self rnd_node.
Proof.
  intros Hlist Hres Hobs Hnear. split; [exact Hnear |].
  destruct (get_nearest_node_index_spec (node_list self) rnd_node)
    as [i [nearest [Hi [Hlt Hnth]]]];
    [rewrite Hlist; discriminate |].
  destruct (steer_spec self nearest rnd_node (expand_dis self) Hres)
    as [new_node [tx [ty [Hnew [_ [_ [Hpx [Hpy _]]]]]]]].
  exists i, nearest, new_node.
  split; [exact Hi |]. split; [apply py_getitem_Ok, Hnth |].
  split; [exact Hnew |].
  rewrite Hlist in Hnth, Hlt. simpl in Hlt.
  assert (i = O) by lia. subst i. simpl in Hnth. injection Hnth as <-.
  destruct (check_obstacles_spec new_node (obstacle_list self))
    as [free [Hfree Hiff]].
  { apply path_points_nonempty; [rewrite Hpx | rewrite Hpy]; discriminate. }
  simpl. rewrite Hfree. f_equal.
  destruct free; [| reflexivity].
  destruct (proj1 Hiff eq_refl _ _ _ Hobs) as [m [[_ Hall] Hlt']].
  specialize (Hall ((x s - x s) ^ 2 + (y s - y s) ^ 2)).
  unfold path_points in Hall. rewrite Hpx, Hpy in Hall.
  specialize (Hall (or_introl eq_refl)).
  assert (0 <= (size + InflationRadius) ^ 2) by apply pow2_ge_0.
  replace ((x s - x s) ^ 2 + (y s - y s) ^ 2) with 0 in Hall by ring.
  lra.
Qed.

Lemma goal_sample_distance (e : Node) :
  EuclideanDistanceOfNodes e (Node_init (x e) (y e)) = 0.
Proof.
  unfold EuclideanDistanceOfNodes. simpl.
  replace ((y e - y e) ^ 2 + (x e - x e) ^ 2) with 0 by ring.
  apply sqrt_0.
Qed.

(** With an exhausted script, [randint] returns 0 and the goal is sampled
    in every turn; from a blocked start all turns end in collision. *)
Lemma blocked_start_after_turns (n : nat) (self : RRT.t) (s : Node)
    (size : R) :
  node_list self = [s] ->
  path_resolution self <> 0 ->
  In (x s, y s, size) (obstacle_list self) ->
  (0 <= goal_sample_rate self)%Z ->
  0 <= SamplingRadius self ->
  0 <= ExpansionCoeff self * ExpansionEps self ->
  let rs := {| ints := []; reals := [] |} in
  steered_in_collision self (fst (get_random_node self rs)) /\
  after_turns n self rs = Some (relaxed_times n self, rs).
Proof.
  intros Hlist Hres Hobs Hrate Hrad Hstep rs.
  assert (Hsample : forall self0 : RRT.t,
             (0 <= goal_sample_rate self0)%Z ->
             get_random_node self0 rs
             = (Node_init (x (end_ self0)) (y (end_ self0)), rs)).
  { intros self0 H0. unfold get_random_node. simpl.
    destruct (Z.gtb_spec 0 (goal_sample_rate self0)); [lia | reflexivity]. }
  revert self Hlist Hres Hobs Hrate Hrad Hstep.
  induction n as [| n IH]; intros self Hlist Hres Hobs Hrate Hrad Hstep.
  - split; [| reflexivity].
    rewrite Hsample by exact Hrate. simpl fst.
    apply (blocked_start_collides self s _ size Hlist Hres Hobs).
    rewrite goal_sample_distance. lra.
  - assert (Hcol : steered_in_collision self
                     (Node_init (x (end_ self)) (y (end_ self)))).
    { apply (blocked_start_collides self s _ size Hlist Hres Hobs).
      rewrite goal_sample_distance. lra. }
    split; [rewrite Hsample by exact Hrate; exact Hcol |].
    rewrite after_turns_S, Hsample by exact Hrate.
    rewrite (planning_body_collision _ _ Hcol).
    apply (IH (relaxed self)); try assumption.
    simpl. lra.
Qed.

Lemma blocked_rrt_turns (n : nat) :
  let self := set_node_list blocked_rrt [start blocked_rrt] in
  let rs := {| ints := []; reals := [] |} in
  steered_in_collision (relaxed_times n self)
    (fst (get_random_node (relaxed_times n self) rs)) /\
  after_turns n self rs = Some (relaxed_times n self, rs).
Proof.
  intros self rs.
  assert (Hinv : forall k (self0 : RRT.t),
            node_list self0 = [start blocked_rrt] ->
            path_resolution self0 = 0.2 ->
            obstacle_list self0 = [(-5, -8, 1)] ->
            goal_sample_rate self0 = 5%Z ->
            0 <= SamplingRadius self0 ->
            ExpansionCoeff self0 * ExpansionEps self0 = 2 * 0.3 ->
            steered_in_collision (relaxed_times k self0)
              (fst (get_random_node (relaxed_times k self0) rs))).
  { induction k as [| k IH]; intros self0 Hl Hr Ho Hg Hs He.
    - apply (blocked_start_after_turns O self0 (start blocked_rrt) 1);
        try assumption; try lra; try lia.
      rewrite Ho. left. reflexivity.
    - simpl. apply IH; try assumption. simpl. lra. }
  split.
  - apply Hinv; try reflexivity. simpl. apply sqrt_pos.
  - apply (blocked_start_after_turns n self (start blocked_rrt) 1);
      try reflexivity.
    + simpl. unfold Defaults.path_resolution. lra.
    + left. reflexivity.
    + simpl. unfold Defaults.goal_sample_rate. lia.
    + simpl. apply sqrt_pos.
    + simpl. lra.
Qed.

Lemma sampling_radius_after_collisions_witness :
  let self := set_node_list blocked_rrt [start blocked_rrt] in
  let rs := {| ints := []; reals := [] |} in
  (forall k, (k < 2)%nat ->
     exists self_k rs_k,
       after_turns k self rs = Some (self_k, rs_k) /\
       steered_in_collision self_k (fst (get_random_node self_k rs_k))) /\
  exists self_N rs_N,
    after_turns 2 self rs = Some (self_N, rs_N) /\
    SamplingRadius self_N = SamplingRadius self + 2 * 0.3 + 2 * 0.3 /\
    node_list self_N = [start blocked_rrt].
Proof.
  intros self rs.
  assert (Hall : forall k, (k < 2)%nat ->
     exists self_k rs_k,
       after_turns k self rs = Some (self_k, rs_k) /\
       steered_in_collision self_k (fst (get_random_node self_k rs_k))).
  { intros k _. destruct (blocked_rrt_turns k) as [Hcol Hk].
    exists (relaxed_times k self), rs. split; [exact Hk | exact Hcol]. }
  split; [exact Hall |].
  exact (sampling_radius_after_collisions 2 self rs Hall).
Defined.


(** *** The tree (C7) *)

Lemma steer_Ok_inv (self : RRT.t) (from_node to_node : Node) (L : R)
    (n : Node) :
  steer self from_node to_node L = Ok n ->
  path_resolution self <> 0 /\
  let theta := snd (calc_distance_and_angle from_node to_node) in
  let k := Z.to_nat (n_expand self from_node to_node L) in
  x n = x from_node + INR k * (path_resolution self * cos theta) /\
  y n = y from_node + INR k * (path_resolution self * sin theta) /\
  (exists tx ty,
      path_x n = x from_node :: tx /\ path_y n = y from_node :: ty) /\
  parent n = Some from_node.
Proof.
  intros Hn.
  assert (Hres : path_resolution self <> 0).
  { intros H0. rewrite (steer_raises _ _ _ _ H0) in Hn. discriminate Hn. }
  split; [exact Hres |].
  destruct (steer_spec self from_node to_node L Hres)
    as [n' [tx [ty [Hn' [Hx [Hy [Hpx [Hpy [_ Hpar]]]]]]]]].
  rewrite Hn in Hn'. injection Hn' as <-.
  repeat split; try assumption.
  exists tx, ty. split; assumption.
Qed.

Lemma tree_invariant_root_only (start0 : Node) (l : list Node) :
  tree_invariant start0 l ->
  forall i n, nth_error l i = Some n -> (parent n = None <-> i = O).
Proof.
  intros [H0 [Hroot Hrest]] i n Hn. destruct i as [| i].
  - rewrite H0 in Hn. injection Hn as <-.
    split; [reflexivity | intros _; exact Hroot].
  - destruct (Hrest i n Hn) as [j [p [_ [_ Hp]]]].
    split; [rewrite Hp; discriminate | discriminate].
Qed.

Lemma tree_invariant_app (start0 : Node) (l : list Node) (new p : Node) :
  tree_invariant start0 l -> In p l -> parent new = Some p ->
  tree_invariant start0 (l ++ [new]).
Proof.
  intros [H0 [Hroot Hrest]] Hin Hpar.
  assert (Hlen : (0 < length l)%nat).
  { apply nth_error_Some. rewrite H0. discriminate. }
  split; [rewrite nth_error_app1 by exact Hlen; exact H0 |].
  split; [exact Hroot |].
  intros i n Hn.
  destruct (Nat.lt_ge_cases (S i) (length l)) as [Hlt | Hge].
  - rewrite nth_error_app1 in Hn by exact Hlt.
    destruct (Hrest i n Hn) as [j [q [Hj [Hq Hpq]]]].
    exists j, q. split; [exact Hj |]. split; [| exact Hpq].
    rewrite nth_error_app1; [exact Hq |].
    apply nth_error_Some. rewrite Hq. discriminate.
  - rewrite nth_error_app2 in Hn by exact Hge.
    destruct (S i - length l)%nat as [| m] eqn:Hm.
    + simpl in Hn. injection Hn as <-.
      destruct (In_nth_error _ _ Hin) as [j Hj].
      assert (Hjlt : (j < length l)%nat)
        by (apply nth_error_Some; rewrite Hj; discriminate).
      exists j, p. split; [lia |]. split; [| exact Hpar].
      rewrite nth_error_app1 by exact Hjlt. exact Hj.
    + simpl in Hn. destruct m; discriminate Hn.
Qed.

Lemma planning_body_tree (self : RRT.t) (rnd_node : Node) (flow : Flow)
    (self1 : RRT.t) (start0 : Node) :
  tree_invariant start0 (node_list self) ->
  planning_body self rnd_node = Ok (flow, self1) ->
  tree_invariant start0 (node_list self1).
Proof.
  intros Hinv H. apply planning_body_cases in H.
  destruct H as [[_ [_ ->]] | [_ [i [nearest [new_node [_ [Hnth [Hnew H]]]]]]]];
    [exact Hinv |].
  destruct H as [[_ [_ ->]] | [_ [-> _]]]; [exact Hinv |].
  apply steer_Ok_inv in Hnew. destruct Hnew as [_ [_ [_ [_ Hpar]]]].
  apply (tree_invariant_app _ _ _ nearest Hinv);
    [apply (nth_error_In _ _ Hnth) | exact Hpar].
Qed.

Section Tree.

Context {Gen : Type} {random : Random Gen}.

(** A property of the planner that every turn of the loop keeps holds of
    the planner that the loop leaves. *)
Lemma planning_loop_invariant (P : RRT.t -> Prop) :
  (forall self rnd_node flow self1,
     P self -> planning_body self rnd_node = Ok (flow, self1) -> P self1) ->
  forall budget self rs result self1 rs1,
    P self ->
    planning_loop budget self rs = Ok (result, self1, rs1) ->
    P self1.
Proof.
  intros Hbody. induction budget as [| budget IH];
    intros self rs result self1 rs1 HP H.
  - injection H as <- <- <-. exact HP.
  - rewrite planning_loop_S in H.
    destruct (get_random_node self rs) as [rnd_node rs2].
    destruct (planning_body self rnd_node) as [[flow self2] | e] eqn:Hb;
      [| discriminate H].
    cbn [bind] in H. specialize (Hbody _ _ _ _ HP Hb).
    destruct flow as [| path].
    + apply (IH _ _ _ _ _ Hbody H).
    + injection H as <- <- <-. exact Hbody.
Qed.

Lemma after_turns_invariant (P : RRT.t -> Prop) :
  (forall self rnd_node flow self1,
     P self -> planning_body self rnd_node = Ok (flow, self1) -> P self1) ->
  forall k self rs self1 rs1,
    P self -> after_turns k self rs = Some (self1, rs1) -> P self1.
Proof.
  intros Hbody k self rs self1 rs1 HP H.
  apply planning_loop_None_iff in H.
  apply (planning_loop_invariant P Hbody _ _ _ _ _ _ HP H).
Qed.

Lemma after_turns_add (j m : nat) (self self1 : RRT.t) (rs rs1 : Gen) :
  after_turns (j + m) self rs = Some (self1, rs1) ->
  exists self_j rs_j,
    after_turns j self rs = Some (self_j, rs_j) /\
    after_turns m self_j rs_j = Some (self1, rs1).
Proof.
  revert self rs. induction j as [| j IH]; intros self rs H.
  - exists self, rs. split; [reflexivity | exact H].
  - change (S j + m)%nat with (S (j + m)) in H.
    rewrite after_turns_S in H. rewrite after_turns_S.
    destruct (get_random_node self rs) as [rnd_node rs2].
    destruct (planning_body self rnd_node) as [[[| path] self2] | e];
      try discriminate H.
    apply IH, H.
Qed.

Lemma after_turns_appends (m : nat) (self self1 : RRT.t) (rs rs1 : Gen) :
  after_turns m self rs = Some (self1, rs1) ->
  exists added, node_list self1 = node_list self ++ added.
Proof.
  apply (after_turns_invariant
           (fun s => exists added, node_list s = node_list self ++ added)).
  - intros s rnd_node flow s1 [added Hs] Hb.
    destruct (planning_body_keeps _ _ _ _ Hb)
      as [_ [_ [_ [_ [_ [_ [_ [added' Hadd]]]]]]]].
    exists (added ++ added'). rewrite Hadd, Hs, app_assoc. reflexivity.
  - exists []. rewrite app_nil_r. reflexivity.
Qed.

(** C7: throughout a run of [planning] (after any number of turns of the
    loop, and when [planning] returns) the node list has the start node at
    index 0, the start is the only node without a parent, and the parent of
    every other node is a node at a lower index; the list after [j] turns
    is a prefix of the list after [k >= j] turns, so nodes are only
    appended and keep their parent. *)
Theorem tree_invariant_throughout (self : RRT.t) (rs : Gen) :
  parent (start self) = None ->
  let self0 := set_node_list self [start self] in
  (forall k self_k rs_k,
     after_turns k self0 rs = Some (self_k, rs_k) ->
     tree_invariant (start self) (node_list self_k) /\
     (forall i n, nth_error (node_list self_k) i = Some n ->
                  (parent n = None <-> i = O)) /\
     (forall j, (j <= k)%nat ->
        exists self_j rs_j added,
          after_turns j self0 rs = Some (self_j, rs_j) /\
          node_list self_k = node_list self_j ++ added)) /\
  (forall result self1 rs1,
     planning self rs = Ok (result, self1, rs1) ->
     tree_invariant (start self) (node_list self1) /\
     (forall i n, nth_error (node_list self1) i = Some n ->
                  (parent n = None <-> i = O))).
Proof.
  intros Hroot self0.
  assert (H0 : tree_invariant (start self) (node_list self0)).
  { split; [reflexivity |]. split; [exact Hroot |].
    intros i n Hn. destruct i; discriminate Hn. }
  assert (Hbody : forall s rnd_node flow s1,
             tree_invariant (start self) (node_list s) ->
             planning_body s rnd_node = Ok (flow, s1) ->
             tree_invariant (start self) (node_list s1)).
  { intros s rnd_node flow s1 Hs Hb.
    apply (planning_body_tree _ _ _ _ _ Hs Hb). }
  split.
  - intros k self_k rs_k Hk.
    assert (Hinv : tree_invariant (start self) (node_list self_k)).
    { apply (after_turns_invariant
               (fun s => tree_invariant (start self) (node_list s))
               Hbody _ _ _ _ _ H0 Hk). }
    split; [exact Hinv |].
    split; [apply (tree_invariant_root_only _ _ Hinv) |].
    intros j Hj.
    replace k with (j + (k - j))%nat in Hk by lia.
    destruct (after_turns_add _ _ _ _ _ _ Hk) as [self_j [rs_j [Hj1 Hj2]]].
    destruct (after_turns_appends _ _ _ _ _ Hj2) as [added Hadd].
    exists self_j, rs_j, added. split; [exact Hj1 | exact Hadd].
  - intros result self1 rs1 Hplan. unfold planning in Hplan.
    assert (Hinv : tree_invariant (start self) (node_list self1)).
    { apply (planning_loop_invariant
               (fun s => tree_invariant (start self) (node_list s))
               Hbody _ _ _ _ _ _ H0 Hplan). }
    split; [exact Hinv | apply (tree_invariant_root_only _ _ Hinv)].
Qed.

End Tree.

(** *** The returned path (C1) *)

Lemma course_from_parent (n p : Node) :
  parent n = Some p -> course_from n = (x n, y n) :: course_from p.
Proof.
  destruct n as [nx ny px py [q |]]; simpl; intros H;
    [injection H as ->; reflexivity | discriminate H].
Qed.

Lemma course_from_root (n : Node) :
  parent n = None -> course_from n = [(x n, y n)].
Proof.
  destruct n as [nx ny px py [q |]]; simpl; intros H;
    [discriminate H | reflexivity].
Qed.

Lemma planning_body_courses (self : RRT.t) (rnd_node : Node) (flow : Flow)
    (self1 : RRT.t) (start0 : Node) :
  courses_end_at start0 (node_list self) ->
  planning_body self rnd_node = Ok (flow, self1) ->
  courses_end_at start0 (node_list self1) /\
  forall path, flow = Return path ->
    exists middle,
      path = (x (end_ self), y (end_ self))
               :: middle ++ [(x start0, y start0)].
Proof.
  intros Hinv H. apply planning_body_cases in H.
  destruct H
    as [[_ [-> ->]] | [_ [i [nearest [new_node [_ [Hnth [Hnew H]]]]]]]];
    [split; [exact Hinv | discriminate] |].
  destruct H as [[_ [-> ->]] | [_ [-> Hflow]]];
    [split; [exact Hinv | discriminate] |].
  apply steer_Ok_inv in Hnew. destruct Hnew as [_ [_ [_ [_ Hpar]]]].
  destruct (Hinv nearest (nth_error_In _ _ Hnth)) as [pre Hpre].
  assert (Hcourse : course_from new_node
                    = ((x new_node, y new_node) :: pre)
                        ++ [(x start0, y start0)]).
  { rewrite (course_from_parent _ _ Hpar), Hpre. reflexivity. }
  split.
  - intros n Hn. change (node_list (extended self new_node))
      with (node_list self ++ [new_node]) in Hn.
    apply in_app_or in Hn. destruct Hn as [Hn | [<- | []]].
    + apply Hinv, Hn.
    + eexists. exact Hcourse.
  - intros path Hpath. destruct Hflow as [-> | ->]; [discriminate Hpath |].
    injection Hpath as <-. rewrite Hcourse. eexists. reflexivity.
Qed.

Section FinalCourse.

Context {Gen : Type} {random : Random Gen}.

Lemma planning_loop_path (start0 goal : Node) (budget : nat)
    (self : RRT.t) (rs : Gen) (path : list (R * R)) (self1 : RRT.t)
    (rs1 : Gen) :
  end_ self = goal ->
  courses_end_at start0 (node_list self) ->
  planning_loop budget self rs = Ok (Some path, self1, rs1) ->
  exists middle,
    path = (x goal, y goal) :: middle ++ [(x start0, y start0)].
Proof.
  revert self rs.
  induction budget as [| budget IH]; intros self rs Hgoal Hinv H.
  - discriminate H.
  - rewrite planning_loop_S in H.
    destruct (get_random_node self rs) as [rnd_node rs2].
    destruct (planning_body self rnd_node) as [[flow self2] | e] eqn:Hb;
      [| discriminate H].
    cbn [bind] in H.
    destruct (planning_body_courses _ _ _ _ _ Hinv Hb) as [Hinv2 Hret].
    destruct flow as [| path'].
    + apply (IH self2 rs2); [| exact Hinv2 | exact H].
      destruct (planning_body_keeps _ _ _ _ Hb) as [_ [He _]].
      rewrite He. exact Hgoal.
    + injection H as <- <- <-. rewrite <- Hgoal. apply Hret. reflexivity.
Qed.

(** C1: when [planning] returns a path, its first point is the goal
    [(end.x, end.y)] and its last point is the start
    [(start.x, start.y)]. *)
Theorem planning_path_endpoints
    (self : RRT.t) (rs : Gen) (path : list (R * R)) (self1 : RRT.t)
    (rs1 : Gen) :
  parent (start self) = None ->
  planning self rs = Ok (Some path, self1, rs1) ->
  exists middle,
    path = (x (end_ self), y (end_ self))
             :: middle ++ [(x (start self), y (start self))].
Proof.
  intros Hroot Hplan. unfold planning in Hplan.
  apply (planning_loop_path (start self) (end_ self) _
           (set_node_list self [start self]) _ _ _ _ eq_refl)
    in Hplan; [exact Hplan |].
  intros n [<- | []]. exists []. apply course_from_root, Hroot.
Qed.

End FinalCourse.

(** *** How far a steered node is from its parent (C10) *)

Lemma Rgt_dec_Rmin (a b : R) : (if Rgt_dec a b then b else a) = Rmin a b.
Proof.
  unfold Rmin. destruct (Rgt_dec a b) as [H | H];
    destruct (Rle_dec a b) as [H' | H']; try reflexivity; lra.
Qed.

Lemma steered_distance (self : RRT.t) (from_node to_node : Node) (L : R)
    (n : Node) :
  0 < path_resolution self -> 0 <= L ->
  steer self from_node to_node L = Ok n ->
  let d := fst (calc_distance_and_angle from_node to_node) in
  EuclideanDistanceOfNodes n from_node
  = IZR (Zfloor (Rmin L d / path_resolution self)) * path_resolution self /\
  EuclideanDistanceOfNodes n from_node <= L /\
  hd_error (path_points n) = Some (x from_node, y from_node) /\
  parent n = Some from_node.
Proof.
  intros Hres HL Hn d.
  apply steer_Ok_inv in Hn.
  destruct Hn as [_ [Hx [Hy [[tx [ty [Hpx Hpy]]] Hpar]]]].
  unfold n_expand in Hx, Hy. fold d in Hx, Hy.
  rewrite Rgt_dec_Rmin in Hx, Hy.
  set (theta := snd (calc_distance_and_angle from_node to_node)) in *.
  set (res := path_resolution self) in *.
  set (q := Rmin L d / res) in *.
  assert (Hd : 0 <= d) by apply hypot_nonneg.
  assert (Hmin : 0 <= Rmin L d) by (apply Rmin_glb; assumption).
  assert (Hinv : 0 < / res) by (apply Rinv_0_lt_compat; exact Hres).
  assert (Hq : 0 <= q) by (unfold q, Rdiv; nra).
  assert (Hz : (0 <= Zfloor q)%Z) by (apply (Zfloor_lub 0); exact Hq).
  assert (Hk : INR (Z.to_nat (Zfloor q)) = IZR (Zfloor q)).
  { rewrite INR_IZR_INZ, Z2Nat.id by exact Hz. reflexivity. }
  rewrite Hk in Hx, Hy.
  set (K := IZR (Zfloor q) * res).
  assert (HK : 0 <= K).
  { unfold K. apply Rmult_le_pos; [apply IZR_le; exact Hz | lra]. }
  assert (Hdist : EuclideanDistanceOfNodes n from_node = K).
  { unfold EuclideanDistanceOfNodes. rewrite Hx, Hy.
    replace ((y from_node - (y from_node + IZR (Zfloor q) * (res * sin theta)))
               ^ 2
             + (x from_node
                - (x from_node + IZR (Zfloor q) * (res * cos theta))) ^ 2)
      with (K * K * (Rsqr (sin theta) + Rsqr (cos theta)))
      by (unfold K, Rsqr; ring).
    rewrite sin2_cos2, Rmult_1_r. apply sqrt_square, HK. }
  split; [exact Hdist |].
  split; [| split; [| exact Hpar]].
  - rewrite Hdist. unfold K.
    destruct (Zfloor_bound q) as [Hlo _].
    assert (Hqr : q * res = Rmin L d) by (unfold q; field; lra).
    assert (Hle : Rmin L d <= L) by apply Rmin_l.
    nra.
  - unfold path_points. rewrite Hpx, Hpy. reflexivity.
Qed.

(** In exact arithmetic, on a planner with a positive [path_resolution]
    and a non-negative [expand_dis]: when a turn of the loop appends a
    node, the Euclidean distance between the node and its parent [p] is
    [floor(min(expand_dis, d) / path_resolution) * path_resolution] for [d]
    the distance from [p] to the sample, and it is at most [expand_dis]. *)
Lemma appended_node_distance_exact
    (self : RRT.t) (rnd_node : Node) (flow : Flow) (self1 : RRT.t)
    (new_node : Node) :
  0 < path_resolution self -> 0 <= expand_dis self ->
  planning_body self rnd_node = Ok (flow, self1) ->
  node_list self1 = node_list self ++ [new_node] ->
  exists p,
    In p (node_list self) /\
    parent new_node = Some p /\
    let d := fst (calc_distance_and_angle p rnd_node) in
    EuclideanDistanceOfNodes new_node p
    = IZR (Zfloor (Rmin (expand_dis self) d / path_resolution self))
      * path_resolution self /\
    EuclideanDistanceOfNodes new_node p <= expand_dis self.
Proof.
  intros Hres HE Hb Hlist.
  assert (Hsame : forall l : list Node, l = l ++ [new_node] -> False).
  { intros l Hl. apply (f_equal (@length Node)) in Hl.
    rewrite length_app in Hl. simpl in Hl. lia. }
  apply planning_body_cases in Hb.
  destruct Hb as [[_ [_ ->]] | [_ [i [nearest [new' [_ [Hnth [Hnew H]]]]]]]];
    [exfalso; apply (Hsame _ Hlist) |].
  destruct H as [[_ [_ ->]] | [_ [-> _]]];
    [exfalso; apply (Hsame _ Hlist) |].
  change (node_list (extended self new'))
    with (node_list self ++ [new']) in Hlist.
  apply app_inv_head in Hlist. injection Hlist as ->.
  destruct (steered_distance _ _ _ _ _ Hres HE Hnew)
    as [Hdist [Hle [_ Hpar]]].
  exists nearest.
  split; [apply (nth_error_In _ _ Hnth) |].
  split; [exact Hpar |].
  split; [exact Hdist | exact Hle].
Qed.

(** With a negative [path_resolution] the quotient of line 115 is not
    positive, [steer] takes no step and its node stands where [from_node]
    does, at distance 0, whatever
    [floor(min(extend_length, d) / path_resolution) * path_resolution]
    is. *)
Lemma steer_negative_resolution
    (self : RRT.t) (from_node to_node : Node) (L : R) (n : Node) :
  path_resolution self < 0 -> 0 <= L ->
  steer self from_node to_node L = Ok n ->
  x n = x from_node /\ y n = y from_node /\
  EuclideanDistanceOfNodes n from_node = 0.
Proof.
  intros Hres HL Hn.
  apply steer_Ok_inv in Hn. destruct Hn as [_ [Hx [Hy _]]].
  assert (Hk : Z.to_nat (n_expand self from_node to_node L) = O).
  { unfold n_expand. rewrite Rgt_dec_Rmin.
    set (d := fst (calc_distance_and_angle from_node to_node)).
    assert (Hd : 0 <= d) by apply hypot_nonneg.
    assert (Hmin : 0 <= Rmin L d) by (apply Rmin_glb; assumption).
    assert (Hinv : / path_resolution self < 0)
      by (apply Rinv_lt_0_compat; exact Hres).
    assert (Hq : Rmin L d / path_resolution self <= 0)
      by (unfold Rdiv; nra).
    destruct (Zfloor_bound (Rmin L d / path_resolution self)) as [Hlo _].
    assert (Hz : (Zfloor (Rmin L d / path_resolution self) <= 0)%Z).
    { apply le_IZR. lra. }
    lia. }
  rewrite Hk in Hx, Hy. simpl in Hx, Hy.
  assert (Hxn : x n = x from_node) by lra.
  assert (Hyn : y n = y from_node) by lra.
  split; [exact Hxn |]. split; [exact Hyn |].
  unfold EuclideanDistanceOfNodes. rewrite Hxn, Hyn.
  replace ((y from_node - y from_node) ^ 2 + (x from_node - x from_node) ^ 2)
    with 0 by ring.
  apply sqrt_0.
Qed.

Lemma walk_steps_shift (a c : R) (n : nat) :
  [c + a] ++ map (fun i => Nat.iter i (fun v => v + a) (c + a)) (seq 1 n)
  = map (fun i => Nat.iter i (fun v => v + a) c) (seq 1 (S n)).
Proof.
  change (seq 1 (S n)) with (1%nat :: seq 2 n).
  rewrite <- (seq_shift n 1). cbn [map app]. rewrite map_map.
  change (Nat.iter 1 (fun v => v + a) c) with (c + a).
  apply f_equal, map_ext. intros i.
  symmetry. exact (Nat.iter_succ_r i R (fun v => v + a) c).
Qed.

(** The loop of [steer] adds each step to the position the step before it
    left, and records every position. *)
Lemma steer_loop_walk (self : RRT.t) (theta : R) (n : nat) (node : Node) :
  steer_loop self theta n node =
  mkNode (Nat.iter n (fun v => v + path_resolution self * cos theta) (x node))
         (Nat.iter n (fun v => v + path_resolution self * sin theta) (y node))
         (path_x node
          ++ map (fun i =>
                    Nat.iter i (fun v => v + path_resolution self * cos theta)
                             (x node))
                 (seq 1 n))
         (path_y node
          ++ map (fun i =>
                    Nat.iter i (fun v => v + path_resolution self * sin theta)
                             (y node))
                 (seq 1 n))
         (parent node).
Proof.
  revert node. induction n as [| n IH]; intros node.
  - simpl. rewrite !app_nil_r. destruct node; reflexivity.
  - change (steer_loop self theta (S n) node)
      with (steer_loop self theta n (steer_step self theta node)).
    rewrite IH. unfold steer_step. cbn [x y path_x path_y parent].
    rewrite <- !app_assoc, !walk_steps_shift.
    rewrite (Nat.iter_succ_r n R
               (fun v => v + path_resolution self * cos theta)),
            (Nat.iter_succ_r n R
               (fun v => v + path_resolution self * sin theta)).
    reflexivity.
Qed.

(** The node [steer] returns: where it stands and what it records. *)
Lemma steer_walked (self : RRT.t) (from_node to_node : Node) (L : R)
    (n : Node) :
  steer self from_node to_node L = Ok n ->
  let theta := snd (calc_distance_and_angle from_node to_node) in
  let k := Z.to_nat (n_expand self from_node to_node L) in
  let snap :=
    if Rle_dec (fst (calc_distance_and_angle n to_node)) (path_resolution self)
    then true else false in
  (x n, y n) = walked_point self from_node theta k /\
  path_x n
  = map (fun i => fst (walked_point self from_node theta i)) (seq 0 (S k))
    ++ (if snap then [x to_node] else []) /\
  path_y n
  = map (fun i => snd (walked_point self from_node theta i)) (seq 0 (S k))
    ++ (if snap then [y to_node] else []) /\
  parent n = Some from_node.
Proof.
  intros Hn theta k snap. revert Hn. unfold steer.
  change (calc_distance_and_angle (Node_init (x from_node) (y from_node))
                                  to_node)
    with (calc_distance_and_angle from_node to_node).
  unfold snap, k, n_expand, theta. clear snap k theta.
  destruct (calc_distance_and_angle from_node to_node) as [d th].
  cbn [fst snd].
  unfold py_div. destruct (Req_dec_T (path_resolution self) 0) as [H0 | _];
    [discriminate |].
  cbn [bind].
  set (k := Z.to_nat (Zfloor ((if Rgt_dec L d then d else L)
                              / path_resolution self))).
  rewrite steer_loop_walk. cbn [x y path_x path_y parent Node_init].
  unfold calc_distance_and_angle, walked_point. cbn [x y fst snd].
  intros Hn.
  destruct (Rle_dec (hypot (x to_node - Nat.iter k _ (x from_node)) _) _)
    as [Hsnap | Hfar] in Hn;
    apply Ok_inj in Hn; subst n; cbn [x y path_x path_y parent].
  - destruct (Rle_dec _ _) as [_ | Hfar]; [| contradiction].
    repeat split.
  - destruct (Rle_dec _ _) as [Hsnap | _]; [contradiction |].
    rewrite !app_nil_r. repeat split.
Qed.


Lemma hypot_x (a : R) : 0 <= a -> hypot a 0 = a.
Proof.
  intros Ha. unfold hypot. replace (a * a + 0 * 0) with (a * a) by ring.
  apply sqrt_square, Ha.
Qed.

Lemma atan2_x (a : R) : 0 < a -> atan2 0 a = 0.
Proof.
  intros Ha. unfold atan2. destruct (Rlt_dec 0 a) as [_ | H]; [| contradiction].
  replace (0 / a) with 0 by (field; lra). apply atan_0.
Qed.

Lemma steer_along_x (self : RRT.t) (from_node to_node : Node) :
  path_resolution self = 0.2 ->
  x from_node = 0 -> y from_node = 0 -> x to_node = 0.5 -> y to_node = 0 ->
  steer self from_node to_node 0.8
  = Ok (mkNode 0.4 0 [0; 0.2; 0.4; 0.5] [0; 0; 0; 0] (Some from_node)).
Proof.
  intros Hres Hfx Hfy Htx Hty.
  unfold steer, calc_distance_and_angle.
  cbn [x y path_x path_y parent Node_init].
  rewrite Hres, Hfx, Hfy, Htx, Hty.
  replace (0.5 - 0) with 0.5 by lra. replace (0 - 0) with 0 by lra.
  rewrite hypot_x by lra. rewrite atan2_x by lra.
  destruct (Rgt_dec 0.8 0.5) as [_ | H]; [| lra].
  unfold py_div. destruct (Req_dec_T 0.2 0) as [H | _]; [lra |].
  cbn [bind].
  rewrite (Zfloor_eq 2 (0.5 / 0.2)) by lra.
  change (Z.to_nat 2) with 2%nat.
  cbn [steer_loop steer_step x y path_x path_y parent app].
  rewrite Hres, cos_0, sin_0.
  replace (0.5 - (0 + 0.2 * 1 + 0.2 * 1)) with 0.1 by lra.
  replace (0 - (0 + 0.2 * 0 + 0.2 * 0)) with 0 by lra.
  rewrite hypot_x by lra.
  destruct (Rle_dec 0.1 0.2) as [_ | H]; [| lra].
  cbn [x y path_x path_y parent].
  f_equal. f_equal; try lra; repeat (f_equal; try lra).
Qed.

Lemma planning_body_return (self : RRT.t) (rnd_node : Node)
    (nearest_ind : nat) (nearest_node new_node : Node) :
  path_resolution self <> 0 ->
  obstacle_list self = [] ->
  ~ EuclideanDistanceOfNodes (end_ self) rnd_node > SamplingRadius self ->
  get_nearest_node_index (node_list self) rnd_node = Ok nearest_ind ->
  nth_error (node_list self) nearest_ind = Some nearest_node ->
  steer self nearest_node rnd_node (expand_dis self) = Ok new_node ->
  calc_dist_to_goal self (x new_node) (y new_node) <= expand_dis self ->
  planning_body self rnd_node
  = Ok (Return ((x (end_ self), y (end_ self)) :: course_from new_node),
        extended self new_node).
Proof.
  intros Hres Hobs Hnear Hi Hnth Hnew Hclose.
  unfold planning_body.
  destruct (Rgt_dec _ _) as [Hfar | _]; [contradiction |].
  rewrite Hi. cbn [bind].
  apply py_getitem_Ok in Hnth. rewrite Hnth. cbn [bind].
  rewrite Hnew. cbn [bind]. rewrite Hobs.
  cbn [check_collision check_obstacles bind].
  fold_extended self new_node.
  rewrite py_last_app. cbn [bind].
  change (calc_dist_to_goal (extended self new_node))
    with (calc_dist_to_goal self).
  change (expand_dis (extended self new_node)) with (expand_dis self).
  destruct (Rle_dec _ _) as [_ | Hn]; [| contradiction].
  destruct (steer_spec (extended self new_node) new_node
              (end_ (extended self new_node)) (expand_dis self) Hres)
    as [final_node [fx [fy [Hfinal _]]]].
  rewrite Hfinal. cbn [bind].
  change (obstacle_list (extended self new_node)) with (obstacle_list self).
  rewrite Hobs. cbn [check_collision check_obstacles bind].
  rewrite generate_final_course_extended. reflexivity.
Qed.

Lemma near_goal_body :
  let self := set_node_list near_goal_rrt [start near_goal_rrt] in
  planning_body self (Node_init 0.5 0)
  = Ok (Return [(0.5, 0); (0.4, 0); (0, 0)], extended self near_goal_node).
Proof.
  intros self.
  assert (Hres : path_resolution self <> 0).
  { simpl. unfold Defaults.path_resolution. lra. }
  destruct (get_nearest_node_index_spec (node_list self) (Node_init 0.5 0))
    as [i [nearest [Hi [Hlt Hnth]]]]; [discriminate |].
  assert (i = O) by (simpl in Hlt; lia). subst i.
  simpl in Hnth. injection Hnth as <-.
  rewrite (planning_body_return self _ O (start near_goal_rrt) near_goal_node).
  - reflexivity.
  - exact Hres.
  - reflexivity.
  - change (end_ self) with (Node_init 0.5 0).
    rewrite goal_sample_distance.
    assert (0 <= SamplingRadius self) by (simpl; apply sqrt_pos). lra.
  - exact Hi.
  - reflexivity.
  - change (expand_dis self) with 0.8.
    apply steer_along_x; reflexivity.
  - unfold calc_dist_to_goal. simpl.
    replace (0.4 - 0.5) with (- 0.1) by lra. replace (0 - 0) with 0 by lra.
    unfold hypot. replace (- 0.1 * - 0.1 + 0 * 0) with (0.1 * 0.1) by lra.
    rewrite sqrt_square by lra. unfold Defaults.expand_dis. lra.
Qed.

Lemma near_goal_planning :
  let rs := {| ints := []; reals := [] |} in
  planning near_goal_rrt rs
  = Ok (Some [(0.5, 0); (0.4, 0); (0, 0)],
        extended (set_node_list near_goal_rrt [start near_goal_rrt])
                 near_goal_node,
        rs).
Proof.
  intros rs. unfold planning.
  change (Z.to_nat (max_iter (set_node_list near_goal_rrt
                                [start near_goal_rrt])))
    with 10%nat.
  rewrite planning_loop_S.
  change (get_random_node (set_node_list near_goal_rrt [start near_goal_rrt])
            rs)
    with (Node_init 0.5 0, rs).
  cbv beta iota.
  rewrite near_goal_body. reflexivity.
Qed.

Lemma planning_path_endpoints_witness :
  let rs := {| ints := []; reals := [] |} in
  let path := [(0.5, 0); (0.4, 0); (0, 0)] in
  let self1 := extended (set_node_list near_goal_rrt [start near_goal_rrt])
                        near_goal_node in
  (parent (start near_goal_rrt) = None /\
   planning near_goal_rrt rs = Ok (Some path, self1, rs)) /\
  exists middle,
    path = (x (end_ near_goal_rrt), y (end_ near_goal_rrt))
             :: middle
             ++ [(x (start near_goal_rrt), y (start near_goal_rrt))].
Proof.
  intros rs path self1.
  split; [split; [reflexivity | exact near_goal_planning] |].
  exact (planning_path_endpoints near_goal_rrt rs path self1 rs
           eq_refl near_goal_planning).
Defined.

Lemma tree_invariant_throughout_witness :
  parent (start near_goal_rrt) = None /\
  tree_invariant (start near_goal_rrt)
                 [start near_goal_rrt; near_goal_node].
Proof.
  split; [reflexivity |].
  destruct (tree_invariant_throughout near_goal_rrt
              {| ints := []; reals := [] |} eq_refl) as [_ Hfinal].
  destruct (Hfinal _ _ _ near_goal_planning) as [Hinv _].
  exact Hinv.
Defined.


Section RoundedSteps.

Import PrimFloat.
#[local] Set Warnings "-inexact-float".
Local Open Scope float_scope.


End RoundedSteps.

(** * Further properties of the code *)

(** ** Distances and angles *)

Lemma hypot_sqr (a b : R) : hypot a b * hypot a b = a * a + b * b.
Proof. unfold hypot. apply sqrt_sqrt. nra. Qed.

Lemma hypot_sym (a b : R) : hypot (- a) (- b) = hypot a b.
Proof. unfold hypot. f_equal. ring. Qed.

Lemma hypot_eq_0 (a b : R) : hypot a b = 0 <-> a = 0 /\ b = 0.
Proof.
  split.
  - intros H. assert (Hs := hypot_sqr a b). rewrite H in Hs. nra.
  - intros [-> ->]. apply hypot_0_0.
Qed.

Lemma EuclideanDistanceOfNodes_hypot (a b : Node) :
  EuclideanDistanceOfNodes a b = hypot (x b - x a) (y b - y a).
Proof. unfold EuclideanDistanceOfNodes, hypot. f_equal. ring. Qed.

Lemma EuclideanDistanceOfNodes_sym (a b : Node) :
  EuclideanDistanceOfNodes a b = EuclideanDistanceOfNodes b a.
Proof. unfold EuclideanDistanceOfNodes. f_equal. ring. Qed.

Lemma calc_dist_to_goal_Euclidean (self : RRT.t) (a : Node) :
  calc_dist_to_goal self (x a) (y a) = EuclideanDistanceOfNodes a (end_ self).
Proof.
  rewrite EuclideanDistanceOfNodes_sym, EuclideanDistanceOfNodes_hypot.
  reflexivity.
Qed.

(** X1: [EuclideanDistanceOfNodes], the distance of
    [calc_distance_and_angle] and [calc_dist_to_goal] are one and the same
    distance: symmetric, and zero exactly between nodes at the same
    position. *)
Theorem distance_functions_agree (self : RRT.t) (a b : Node) :
  EuclideanDistanceOfNodes a b = fst (calc_distance_and_angle a b) /\
  calc_dist_to_goal self (x a) (y a) = EuclideanDistanceOfNodes a (end_ self) /\
  EuclideanDistanceOfNodes a b = EuclideanDistanceOfNodes b a /\
  (EuclideanDistanceOfNodes a b = 0 <-> x a = x b /\ y a = y b).
Proof.
  split; [apply EuclideanDistanceOfNodes_hypot |].
  split; [apply calc_dist_to_goal_Euclidean |].
  split; [apply EuclideanDistanceOfNodes_sym |].
  rewrite EuclideanDistanceOfNodes_hypot, hypot_eq_0. lra.
Qed.

Lemma atan_nonpos (t : R) : t <= 0 -> atan t <= 0.
Proof.
  intros [Ht | ->]; [| rewrite atan_0; lra].
  apply atan_increasing in Ht. rewrite atan_0 in Ht. lra.
Qed.

Lemma atan_pos (t : R) : 0 < t -> 0 < atan t.
Proof.
  intros Ht. apply atan_increasing in Ht. rewrite atan_0 in Ht. exact Ht.
Qed.

(** The angle of [math.atan2] is in (-pi, pi]. *)
Lemma atan2_bound (b a : R) : - PI < atan2 b a <= PI.
Proof.
  assert (Hpi := PI_RGT_0). unfold atan2.
  destruct (Rlt_dec 0 a) as [Ha | Ha].
  - assert (H := atan_bound (b / a)). lra.
  - destruct (Rlt_dec a 0) as [Ha' | Ha'].
    + assert (Hinv : / a < 0) by (apply Rinv_lt_0_compat; exact Ha').
      assert (H := atan_bound (b / a)).
      destruct (Rle_dec 0 b) as [Hb | Hb].
      * assert (Hn := atan_nonpos (b / a)).
        assert (Ht : b / a <= 0) by (unfold Rdiv; nra).
        specialize (Hn Ht). lra.
      * assert (Ht : 0 < b / a) by (unfold Rdiv; nra).
        apply atan_pos in Ht. lra.
    + destruct (Rlt_dec 0 b); [lra |]. destruct (Rlt_dec b 0); lra.
Qed.

(** The vector [(a, b)] from its length and its angle. *)
Lemma hypot_atan2 (a b : R) :
  hypot a b * cos (atan2 b a) = a /\ hypot a b * sin (atan2 b a) = b.
Proof.
  unfold atan2.
  destruct (Rlt_dec 0 a) as [Ha | Ha];
    [| destruct (Rlt_dec a 0) as [Ha' | Ha']].
  - remember (b / a) as t eqn:Ht.
    assert (Hta : b = a * t) by (rewrite Ht; field; lra).
    assert (Hs : 0 < sqrt (1 + t²)) by (apply sqrt_lt_R0; unfold Rsqr; nra).
    assert (Hss : sqrt (1 + t²) * sqrt (1 + t²) = 1 + t²)
      by (apply sqrt_sqrt; unfold Rsqr; nra).
    assert (Hh : hypot a b = a * sqrt (1 + t²)).
    { unfold hypot. apply sqrt_lem_1; [nra | nra |].
      replace (a * sqrt (1 + t²) * (a * sqrt (1 + t²)))
        with (a * a * (sqrt (1 + t²) * sqrt (1 + t²))) by ring.
      rewrite Hss, Hta. unfold Rsqr. ring. }
    rewrite Hh, cos_atan, sin_atan.
    split; [field; lra | rewrite Hta; field; lra].
  - remember (b / a) as t eqn:Ht.
    assert (Hta : b = a * t) by (rewrite Ht; field; lra).
    assert (Hs : 0 < sqrt (1 + t²)) by (apply sqrt_lt_R0; unfold Rsqr; nra).
    assert (Hss : sqrt (1 + t²) * sqrt (1 + t²) = 1 + t²)
      by (apply sqrt_sqrt; unfold Rsqr; nra).
    assert (Hh : hypot a b = - a * sqrt (1 + t²)).
    { unfold hypot. apply sqrt_lem_1; [nra | nra |].
      replace (- a * sqrt (1 + t²) * (- a * sqrt (1 + t²)))
        with (a * a * (sqrt (1 + t²) * sqrt (1 + t²))) by ring.
      rewrite Hss, Hta. unfold Rsqr. ring. }
    assert (Hc : cos (atan t + PI) = - cos (atan t)) by apply neg_cos.
    assert (Hsn : sin (atan t + PI) = - sin (atan t)) by apply neg_sin.
    assert (Hc' : cos (atan t - PI) = - cos (atan t)).
    { rewrite cos_minus, cos_PI, sin_PI. ring. }
    assert (Hsn' : sin (atan t - PI) = - sin (atan t)).
    { rewrite sin_minus, cos_PI, sin_PI. ring. }
    destruct (Rle_dec 0 b) as [Hb | Hb].
    + rewrite Hh, Hc, Hsn, cos_atan, sin_atan.
      split; [field; lra | rewrite Hta; field; lra].
    + rewrite Hh, Hc', Hsn', cos_atan, sin_atan.
      split; [field; lra | rewrite Hta; field; lra].
  - assert (a = 0) by lra. subst a.
    destruct (Rlt_dec 0 b) as [Hb | Hb];
      [| destruct (Rlt_dec b 0) as [Hb' | Hb']].
    + assert (Hh : hypot 0 b = b).
      { unfold hypot. apply sqrt_lem_1; nra. }
      rewrite Hh, cos_PI2, sin_PI2. lra.
    + assert (Hh : hypot 0 b = - b).
      { unfold hypot. apply sqrt_lem_1; nra. }
      rewrite Hh, cos_neg, sin_neg, cos_PI2, sin_PI2. lra.
    + assert (b = 0) by lra. subst b.
      rewrite hypot_0_0, cos_0, sin_0. lra.
Qed.

(** X2: in exact arithmetic, the distance and the angle
    [calc_distance_and_angle] returns give the second node back from the
    first: the distance is not negative, the angle is in (-pi, pi], and
    going the distance along the angle from [from_node] ends at [to_node].
    (The two equalities are about the exact functions; those of the
    program round.) *)
Theorem calc_distance_and_angle_polar (from_node to_node : Node) :
  let (d, theta) := calc_distance_and_angle from_node to_node in
  0 <= d /\ - PI < theta <= PI /\
  x from_node + d * cos theta = x to_node /\
  y from_node + d * sin theta = y to_node.
Proof.
  unfold calc_distance_and_angle.
  destruct (hypot_atan2 (x to_node - x from_node) (y to_node - y from_node))
    as [Hc Hs].
  split; [apply hypot_nonneg |].
  split; [apply atan2_bound |].
  rewrite Hc, Hs. lra.
Qed.

(** ** The path [steer] records *)

Lemma ray_steps_shift (c a : R) (n : nat) :
  [c + a] ++ map (fun i => c + a + INR i * a) (seq 1 n)
  = map (fun i => c + INR i * a) (seq 1 (S n)).
Proof.
  change (seq 1 (S n)) with (1%nat :: seq 2 n).
  rewrite <- (seq_shift n 1). cbn [map app]. rewrite map_map.
  f_equal; [simpl; ring |].
  apply map_ext. intros i. rewrite S_INR. ring.
Qed.

Lemma steer_loop_path (self : RRT.t) (theta : R) (n : nat) (node : Node) :
  steer_loop self theta n node =
  mkNode (x node + INR n * (path_resolution self * cos theta))
         (y node + INR n * (path_resolution self * sin theta))
         (path_x node
          ++ map (fun i => x node + INR i * (path_resolution self * cos theta))
                 (seq 1 n))
         (path_y node
          ++ map (fun i => y node + INR i * (path_resolution self * sin theta))
                 (seq 1 n))
         (parent node).
Proof.
  revert node. induction n as [| n IH]; intros node.
  - simpl. rewrite !app_nil_r.
    replace (x node + 0 * (path_resolution self * cos theta)) with (x node)
      by ring.
    replace (y node + 0 * (path_resolution self * sin theta)) with (y node)
      by ring.
    destruct node; reflexivity.
  - change (steer_loop self theta (S n) node)
      with (steer_loop self theta n (steer_step self theta node)).
    rewrite IH. unfold steer_step. cbn [x y path_x path_y parent].
    rewrite <- !app_assoc, !ray_steps_shift, S_INR.
    f_equal; ring.
Qed.

(** In exact arithmetic the position after [i] steps is the closed form. *)
Lemma walked_point_closed_form (self : RRT.t) (from_node : Node) (theta : R)
    (i : nat) :
  walked_point self from_node theta i = ray_point self from_node theta i.
Proof.
  unfold walked_point, ray_point. rewrite !iter_add_closed_form. reflexivity.
Qed.

(** The node [steer] returns, in closed form (exact arithmetic). *)
Lemma steer_closed_form (self : RRT.t) (from_node to_node : Node) (L : R) :
  path_resolution self <> 0 ->
  let theta := snd (calc_distance_and_angle from_node to_node) in
  let k := Z.to_nat (n_expand self from_node to_node L) in
  let px := x from_node + INR k * (path_resolution self * cos theta) in
  let py := y from_node + INR k * (path_resolution self * sin theta) in
  let snap :=
    if Rle_dec (hypot (x to_node - px) (y to_node - py)) (path_resolution self)
    then true else false in
  steer self from_node to_node L
  = Ok (mkNode px py
          (map (fun i => fst (ray_point self from_node theta i))
               (seq 0 (S k))
           ++ (if snap then [x to_node] else []))
          (map (fun i => snd (ray_point self from_node theta i))
               (seq 0 (S k))
           ++ (if snap then [y to_node] else []))
          (Some from_node)).
Proof.
  intros Hres theta k px py snap. unfold steer.
  change (calc_distance_and_angle (Node_init (x from_node) (y from_node))
                                  to_node)
    with (calc_distance_and_angle from_node to_node).
  unfold snap, px, py, k, n_expand, theta. clear snap px py k theta.
  destruct (calc_distance_and_angle from_node to_node) as [d th].
  cbn [fst snd].
  unfold py_div. destruct (Req_dec_T (path_resolution self) 0) as [H0 | _];
    [contradiction |].
  cbn [bind].
  set (k := Z.to_nat (Zfloor ((if Rgt_dec L d then d else L)
                              / path_resolution self))).
  rewrite steer_loop_path. cbn [x y path_x path_y parent Node_init].
  unfold calc_distance_and_angle. cbn [x y].
  assert (Hx : forall c a : R,
             [c] ++ map (fun i => c + INR i * a) (seq 1 k)
             = map (fun i => c + INR i * a) (seq 0 (S k))).
  { intros c a. cbn [seq map app]. f_equal. simpl. ring. }
  rewrite !Hx. unfold ray_point. cbn [fst snd].
  destruct (Rle_dec _ _) as [Hsnap | Hfar]; cbn [x y path_x path_y parent].
  - reflexivity.
  - rewrite !app_nil_r. reflexivity.
Qed.

Lemma combine_map_seq {A B : Type} (f : nat -> A) (g : nat -> B)
    (l : list nat) :
  combine (map f l) (map g l) = map (fun i => (f i, g i)) l.
Proof. induction l as [| i l IH]; simpl; [| rewrite IH]; reflexivity. Qed.

Lemma combine_app_same {A B : Type} (l1 l2 : list A) (l1' l2' : list B) :
  length l1 = length l1' ->
  combine (l1 ++ l2) (l1' ++ l2') = combine l1 l1' ++ combine l2 l2'.
Proof.
  revert l1'. induction l1 as [| a l1 IH]; intros [| b l1'] Hlen;
    try discriminate Hlen; simpl; [reflexivity |].
  rewrite IH by (simpl in Hlen; lia). reflexivity.
Qed.

(** Where [steer] ends in exact arithmetic:
    [K = floor(min(L, d) / path_resolution) * path_resolution] along the
    angle to the target, [K] short of it. *)
Lemma steer_position (self : RRT.t) (from_node to_node : Node) (L : R)
    (n : Node) :
  0 < path_resolution self -> 0 <= L ->
  steer self from_node to_node L = Ok n ->
  let d := fst (calc_distance_and_angle from_node to_node) in
  let theta := snd (calc_distance_and_angle from_node to_node) in
  let K := IZR (Zfloor (Rmin L d / path_resolution self))
           * path_resolution self in
  INR (Z.to_nat (n_expand self from_node to_node L)) * path_resolution self
  = K /\
  x n = x from_node + K * cos theta /\
  y n = y from_node + K * sin theta /\
  0 <= K <= Rmin L d /\
  Rmin L d - K < path_resolution self /\
  EuclideanDistanceOfNodes from_node n = K /\
  EuclideanDistanceOfNodes n to_node = d - K.
Proof.
  intros Hres HL Hn d theta K.
  apply steer_Ok_inv in Hn.
  destruct Hn as [_ [Hx [Hy _]]].
  unfold n_expand in *. fold d in Hx, Hy |- *. fold theta in Hx, Hy.
  rewrite Rgt_dec_Rmin in *.
  set (res := path_resolution self) in *.
  set (q := Rmin L d / res) in *.
  assert (Hd : 0 <= d) by apply hypot_nonneg.
  assert (Hmin : 0 <= Rmin L d) by (apply Rmin_glb; assumption).
  assert (Hmind : Rmin L d <= d) by apply Rmin_r.
  assert (Hinv : 0 < / res) by (apply Rinv_0_lt_compat; exact Hres).
  assert (Hq : 0 <= q) by (unfold q, Rdiv; nra).
  assert (Hz : (0 <= Zfloor q)%Z) by (apply (Zfloor_lub 0); exact Hq).
  assert (Hk : INR (Z.to_nat (Zfloor q)) = IZR (Zfloor q)).
  { rewrite INR_IZR_INZ, Z2Nat.id by exact Hz. reflexivity. }
  rewrite Hk in Hx, Hy |- *.
  assert (HK0 : 0 <= K).
  { unfold K. apply Rmult_le_pos; [apply IZR_le; exact Hz | lra]. }
  assert (Hqr : q * res = Rmin L d) by (unfold q; field; lra).
  destruct (Zfloor_bound q) as [Hlo Hhi]. fold K.
  assert (HKmin : K <= Rmin L d) by (unfold K; nra).
  assert (Hrem : Rmin L d - K < res) by (unfold K; nra).
  assert (Hxn : x n = x from_node + K * cos theta)
    by (rewrite Hx; unfold K; ring).
  assert (Hyn : y n = y from_node + K * sin theta)
    by (rewrite Hy; unfold K; ring).
  destruct (hypot_atan2 (x to_node - x from_node) (y to_node - y from_node))
    as [Hc Hs].
  change (hypot (x to_node - x from_node) (y to_node - y from_node))
    with d in Hc, Hs.
  change (atan2 (y to_node - y from_node) (x to_node - x from_node))
    with theta in Hc, Hs.
  assert (Hunit : sin theta * sin theta + cos theta * cos theta = 1)
    by apply sin2_cos2.
  repeat split; try assumption.
  - unfold EuclideanDistanceOfNodes. rewrite Hxn, Hyn.
    replace ((y from_node + K * sin theta - y from_node) ^ 2
             + (x from_node + K * cos theta - x from_node) ^ 2)
      with (K * K * (sin theta * sin theta + cos theta * cos theta)) by ring.
    rewrite Hunit, Rmult_1_r. apply sqrt_square, HK0.
  - unfold EuclideanDistanceOfNodes. rewrite Hxn, Hyn.
    replace ((y to_node - (y from_node + K * sin theta)) ^ 2
             + (x to_node - (x from_node + K * cos theta)) ^ 2)
      with ((d - K) * (d - K)
            * (sin theta * sin theta + cos theta * cos theta)).
    + rewrite Hunit, Rmult_1_r. apply sqrt_square. lra.
    + replace (y to_node) with (y from_node + d * sin theta) by lra.
      replace (x to_node) with (x from_node + d * cos theta) by lra.
      ring.
Qed.

(** X3: in exact arithmetic, on a planner with a positive
    [path_resolution] and with an extension bound that is not negative,
    the node [steer] returns lies on the segment from [from_node] to
    [to_node]: its distances to the two add up to the distance between
    them, so it is never farther from the target than [from_node] is.
    (The sum is about exact steps; those of the program round.) *)
Theorem steer_on_segment (self : RRT.t) (from_node to_node : Node) (L : R)
    (n : Node) :
  0 < path_resolution self -> 0 <= L ->
  steer self from_node to_node L = Ok n ->
  EuclideanDistanceOfNodes from_node n + EuclideanDistanceOfNodes n to_node
  = EuclideanDistanceOfNodes from_node to_node /\
  EuclideanDistanceOfNodes n to_node
  <= EuclideanDistanceOfNodes from_node to_node.
Proof.
  intros Hres HL Hn.
  destruct (steer_position _ _ _ _ _ Hres HL Hn)
    as [_ [_ [_ [[HK0 _] [_ [Hfn Hnt]]]]]].
  rewrite Hfn, Hnt, (EuclideanDistanceOfNodes_hypot from_node to_node).
  change (hypot (x to_node - x from_node) (y to_node - y from_node))
    with (fst (calc_distance_and_angle from_node to_node)).
  lra.
Qed.

Lemma near_goal_steer :
  steer near_goal_rrt (start near_goal_rrt) (Node_init 0.5 0) 0.8
  = Ok near_goal_node.
Proof. apply steer_along_x; reflexivity. Qed.

Lemma near_goal_distance :
  EuclideanDistanceOfNodes (start near_goal_rrt) (Node_init 0.5 0) = 0.5.
Proof.
  rewrite EuclideanDistanceOfNodes_hypot. simpl.
  replace (0.5 - 0) with 0.5 by lra. replace (0 - 0) with 0 by lra.
  apply hypot_x. lra.
Qed.

Lemma near_goal_resolution : 0 < path_resolution near_goal_rrt.
Proof. simpl. unfold Defaults.path_resolution. lra. Qed.

Lemma steer_on_segment_witness :
  let from_node := start near_goal_rrt in
  let to_node := Node_init 0.5 0 in
  (0 < path_resolution near_goal_rrt /\ 0 <= 0.8 /\
   steer near_goal_rrt from_node to_node 0.8 = Ok near_goal_node) /\
  EuclideanDistanceOfNodes from_node near_goal_node
  + EuclideanDistanceOfNodes near_goal_node to_node
  = EuclideanDistanceOfNodes from_node to_node /\
  EuclideanDistanceOfNodes near_goal_node to_node
  <= EuclideanDistanceOfNodes from_node to_node.
Proof.
  intros from_node to_node.
  assert (HL : 0 <= 0.8) by lra.
  split; [repeat split;
          [exact near_goal_resolution | exact HL | exact near_goal_steer] |].
  exact (steer_on_segment near_goal_rrt from_node to_node 0.8 near_goal_node
           near_goal_resolution HL near_goal_steer).
Defined.

Lemma steer_path_snapped
    (self : RRT.t) (from_node to_node : Node) (L : R) (n : Node) :
  path_resolution self <> 0 ->
  steer self from_node to_node L = Ok n ->
  EuclideanDistanceOfNodes n to_node <= path_resolution self ->
  exists pts, path_points n = pts ++ [(x to_node, y to_node)].
Proof.
  intros Hres Hn. rewrite EuclideanDistanceOfNodes_hypot.
  rewrite (steer_closed_form self from_node to_node L Hres) in Hn.
  apply Ok_inj in Hn. subst n. unfold path_points. cbn [path_x path_y x y].
  intros Hclose.
  destruct (Rle_dec _ _) as [_ | Hfar]; [| contradiction].
  rewrite combine_app_same by (rewrite !length_map; reflexivity).
  eexists. reflexivity.
Qed.

(** X4: in exact arithmetic, on a planner with a positive
    [path_resolution], when the target is within the extension bound,
    [steer] ends less than [path_resolution] away from it and records the
    target itself as the last point of the path.  (The steps of the
    program round, and it can end a little more than [path_resolution]
    away and leave the target out: see X19.) *)
Theorem steer_records_reachable_target
    (self : RRT.t) (from_node to_node : Node) (L : R) (n : Node) :
  0 < path_resolution self ->
  EuclideanDistanceOfNodes from_node to_node <= L ->
  steer self from_node to_node L = Ok n ->
  EuclideanDistanceOfNodes n to_node < path_resolution self /\
  exists pts, path_points n = pts ++ [(x to_node, y to_node)].
Proof.
  intros Hres Hd Hn.
  assert (HL : 0 <= L).
  { rewrite EuclideanDistanceOfNodes_hypot in Hd.
    assert (H := hypot_nonneg (x to_node - x from_node)
                              (y to_node - y from_node)). lra. }
  destruct (steer_position _ _ _ _ _ Hres HL Hn)
    as [_ [Hx [Hy [_ [Hrem [_ Hnt]]]]]].
  rewrite EuclideanDistanceOfNodes_hypot in Hd.
  change (hypot (x to_node - x from_node) (y to_node - y from_node))
    with (fst (calc_distance_and_angle from_node to_node)) in Hd.
  rewrite Rmin_right in Hrem, Hnt by exact Hd.
  assert (Hclose : EuclideanDistanceOfNodes n to_node < path_resolution self)
    by (rewrite Hnt; exact Hrem).
  split; [exact Hclose |].
  assert (Hres0 : path_resolution self <> 0) by lra.
  apply (steer_path_snapped _ _ _ _ _ Hres0 Hn). lra.
Qed.

Lemma steer_records_reachable_target_witness :
  let from_node := start near_goal_rrt in
  let to_node := Node_init 0.5 0 in
  (0 < path_resolution near_goal_rrt /\
   EuclideanDistanceOfNodes from_node to_node <= 0.8 /\
   steer near_goal_rrt from_node to_node 0.8 = Ok near_goal_node) /\
  EuclideanDistanceOfNodes near_goal_node to_node
  < path_resolution near_goal_rrt /\
  exists pts, path_points near_goal_node = pts ++ [(0.5, 0)].
Proof.
  intros from_node to_node.
  assert (Hd : EuclideanDistanceOfNodes from_node to_node <= 0.8).
  { unfold from_node, to_node. rewrite near_goal_distance. lra. }
  split; [repeat split;
          [exact near_goal_resolution | exact Hd | exact near_goal_steer] |].
  exact (steer_records_reachable_target near_goal_rrt from_node to_node 0.8
           near_goal_node near_goal_resolution Hd near_goal_steer).
Defined.

Section RoundedSnap.

Import PrimFloat.
#[local] Set Warnings "-inexact-float".
Local Open Scope float_scope.

(** X19: in binary64 [steer] can leave out a target that is within the
    extension bound.  With the default [path_resolution] of [0.2] and a
    bound of [0.8], from [(10, 0)] towards [(10.6, 0)]: the distance is
    [0.5999999999999996], the quotient of line 115 is below 3 and
    [n_expand] is 2; the two steps end at [x = 10.399999999999999],
    [0.20000000000000107] from the target, above [path_resolution]; the
    test of line 124 fails and the path is the three points walked,
    without the target. *)
Theorem steer_misses_reachable_target :
  let self := Binary64.main_rrt in
  let from_node := Binary64.Node_init 10 0 in
  let to_node := Binary64.Node_init 10.6 0 in
  let n :=
    Binary64.mkNode 10.399999999999999 0
      [10; 10.2; 10.399999999999999] [0; 0; 0] (Some from_node) in
  Binary64.calc_distance_and_angle from_node to_node
  = Some (0.5999999999999996, 0) /\
  (0.5999999999999996 <=? Binary64.expand_dis self) = true /\
  Binary64.floor (0.5999999999999996 / Binary64.path_resolution self)
  = Some 2%Z /\
  Binary64.steer self from_node to_node (Binary64.expand_dis self) = Some n /\
  Binary64.calc_distance_and_angle n to_node
  = Some (0.20000000000000107, 0) /\
  (0.20000000000000107 <=? Binary64.path_resolution self) = false.
Proof.
  intros self from_node to_node n.
  repeat split; vm_compute; reflexivity.
Qed.

End RoundedSnap.

(** X5: the path [steer] records is the polyline it walked: the position
    of [from_node] and then, one after the other, the positions that the
    [n_expand] steps of [path_resolution] along the angle to the target
    left, each step added to the position before it; the last of them is
    the position of the returned node; the target follows when the node
    ends within [path_resolution] of it; [path_x] and [path_y] have the
    same length. *)
Theorem steer_path_points
    (self : RRT.t) (from_node to_node : Node) (L : R) (n : Node) :
  steer self from_node to_node L = Ok n ->
  let theta := snd (calc_distance_and_angle from_node to_node) in
  let k := Z.to_nat (n_expand self from_node to_node L) in
  path_points n
  = map (walked_point self from_node theta) (seq 0 (S k))
    ++ (if Rle_dec (fst (calc_distance_and_angle n to_node))
                   (path_resolution self)
        then [(x to_node, y to_node)] else []) /\
  (x n, y n) = walked_point self from_node theta k /\
  length (path_x n) = length (path_y n).
Proof.
  intros Hn theta k.
  destruct (steer_walked _ _ _ _ _ Hn) as [Hpos [Hpx [Hpy _]]].
  fold theta k in Hpos, Hpx, Hpy.
  split; [| split; [exact Hpos |]].
  - unfold path_points. rewrite Hpx, Hpy.
    rewrite combine_app_same by (rewrite !length_map; reflexivity).
    rewrite combine_map_seq.
    destruct (Rle_dec _ _) as [_ | _]; reflexivity.
  - rewrite Hpx, Hpy, !length_app, !length_map.
    destruct (Rle_dec _ _); reflexivity.
Qed.

Lemma steer_path_points_witness :
  let from_node := start near_goal_rrt in
  let to_node := Node_init 0.5 0 in
  let theta := snd (calc_distance_and_angle from_node to_node) in
  let k := Z.to_nat (n_expand near_goal_rrt from_node to_node 0.8) in
  steer near_goal_rrt from_node to_node 0.8 = Ok near_goal_node /\
  path_points near_goal_node
  = map (walked_point near_goal_rrt from_node theta) (seq 0 (S k))
    ++ (if Rle_dec (fst (calc_distance_and_angle near_goal_node to_node))
                   (path_resolution near_goal_rrt)
        then [(x to_node, y to_node)] else []) /\
  (x near_goal_node, y near_goal_node)
  = walked_point near_goal_rrt from_node theta k /\
  length (path_x near_goal_node) = length (path_y near_goal_node).
Proof.
  intros from_node to_node theta k.
  split; [exact near_goal_steer |].
  exact (steer_path_points near_goal_rrt from_node to_node 0.8
           near_goal_node near_goal_steer).
Defined.

(** ** More on the planning loop *)

(** [steer] reads nothing of the planner but [path_resolution]. *)
Lemma steer_resolution (self self' : RRT.t) (from_node to_node : Node)
    (L : R) :
  path_resolution self = path_resolution self' ->
  steer self from_node to_node L = steer self' from_node to_node L.
Proof.
  intros Hres.
  assert (Hloop : forall theta n node,
             steer_loop self theta n node = steer_loop self' theta n node).
  { intros theta n. induction n as [| n IH]; intros node; [reflexivity |].
    simpl. rewrite IH. unfold steer_step. rewrite Hres. reflexivity. }
  unfold steer.
  destruct (calc_distance_and_angle _ to_node) as [d theta].
  rewrite Hres. destruct (py_div _ _) as [q | e]; [| reflexivity].
  cbn [bind]. rewrite Hloop. reflexivity.
Qed.

(** A turn that appends: what the body tested before it ended. *)
Lemma planning_body_append_inv
    (self : RRT.t) (rnd_node : Node) (flow : Flow) (self1 : RRT.t) :
  planning_body self rnd_node = Ok (flow, self1) ->
  node_list self1 <> node_list self ->
  exists nearest_node new_node,
    In nearest_node (node_list self) /\
    ~ EuclideanDistanceOfNodes (end_ self) rnd_node > SamplingRadius self /\
    steer self nearest_node rnd_node (expand_dis self) = Ok new_node /\
    check_collision (Some new_node) (obstacle_list self) = Ok true /\
    self1 = extended self new_node /\
    (forall path, flow = Return path ->
       path = (x (end_ self), y (end_ self)) :: course_from new_node /\
       calc_dist_to_goal self (x new_node) (y new_node) <= expand_dis self /\
       exists final_node,
         steer self new_node (end_ self) (expand_dis self) = Ok final_node /\
         check_collision (Some final_node) (obstacle_list self) = Ok true).
Proof.
  unfold planning_body.
  destruct (Rgt_dec (EuclideanDistanceOfNodes (end_ self) rnd_node)
                    (SamplingRadius self)) as [Hfar | Hnear].
  { intros H Hne. injection H as <- <-. contradiction Hne. reflexivity. }
  intros H Hne.
  apply bind_Ok in H. destruct H as [nearest_ind [Hind H]].
  apply bind_Ok in H. destruct H as [nearest_node [Hnode H]].
  apply bind_Ok in H. destruct H as [new_node [Hnew H]].
  apply bind_Ok in H. destruct H as [free [Hfree H]].
  destruct free.
  2:{ injection H as <- <-. contradiction Hne. reflexivity. }
  exists nearest_node, new_node.
  split; [apply py_getitem_Ok in Hnode; apply (nth_error_In _ _ Hnode) |].
  split; [exact Hnear |]. split; [exact Hnew |]. split; [exact Hfree |].
  fold_extended self new_node in H.
  rewrite py_last_app in H. cbn [bind] in H.
  change (calc_dist_to_goal (extended self new_node))
    with (calc_dist_to_goal self) in H.
  change (expand_dis (extended self new_node)) with (expand_dis self) in H.
  change (end_ (extended self new_node)) with (end_ self) in H.
  change (obstacle_list (extended self new_node))
    with (obstacle_list self) in H.
  destruct (Rle_dec _ _) as [Hclose | Hfar] in H.
  - apply bind_Ok in H. destruct H as [final_node [Hfinal H]].
    apply bind_Ok in H. destruct H as [final_free [Hff H]].
    destruct final_free.
    + rewrite generate_final_course_extended in H. cbn [bind] in H.
      injection H as <- <-. split; [reflexivity |].
      intros path Hpath. injection Hpath as <-.
      split; [reflexivity |]. split; [exact Hclose |].
      exists final_node. split; [| exact Hff].
      rewrite <- Hfinal. apply steer_resolution. reflexivity.
    + injection H as <- <-. split; [reflexivity | discriminate].
  - injection H as <- <-. split; [reflexivity | discriminate].
Qed.

(** *** A [path_resolution] of zero *)

Lemma planning_body_resolution_zero (self : RRT.t) (rnd_node : Node) :
  path_resolution self = 0 -> node_list self <> [] ->
  planning_body self rnd_node
  = if Rgt_dec (EuclideanDistanceOfNodes (end_ self) rnd_node)
               (SamplingRadius self)
    then Ok (Continue, self)
    else Raise ZeroDivisionError.
Proof.
  intros Hres Hlist. unfold planning_body.
  destruct (Rgt_dec _ _) as [_ | _]; [reflexivity |].
  destruct (get_nearest_node_index_spec (node_list self) rnd_node Hlist)
    as [i [nearest [Hi [_ Hnth]]]].
  rewrite Hi. cbn [bind].
  apply py_getitem_Ok in Hnth. rewrite Hnth. cbn [bind].
  rewrite (steer_raises _ _ _ _ Hres). reflexivity.
Qed.


Section ResolutionZero.

Context {Gen : Type} {random : Random Gen}.

Lemma planning_loop_resolution_zero (budget : nat) (self : RRT.t) (rs : Gen) :
  path_resolution self = 0 -> node_list self <> [] ->
  planning_loop budget self rs = Raise ZeroDivisionError \/
  exists rs1, planning_loop budget self rs = Ok (None, self, rs1).
Proof.
  intros Hres Hlist. revert rs.
  induction budget as [| budget IH]; intros rs.
  - right. exists rs. reflexivity.
  - rewrite planning_loop_S.
    destruct (get_random_node self rs) as [rnd_node rs1].
    rewrite (planning_body_resolution_zero _ _ Hres Hlist).
    destruct (Rgt_dec _ _) as [_ | _]; cbn [bind];
      [apply IH | left; reflexivity].
Qed.

(** X6: with a [path_resolution] of zero [planning] never returns a path
    and never grows the tree: it raises [ZeroDivisionError] (at the first
    sample the sampling radius lets through), or, when every sample was
    discarded, returns [None] with the planner as it started. *)
Theorem planning_resolution_zero (self : RRT.t) (rs : Gen) :
  path_resolution self = 0 ->
  planning self rs = Raise ZeroDivisionError \/
  exists rs1,
    planning self rs = Ok (None, set_node_list self [start self], rs1).
Proof.
  intros Hres. unfold planning.
  apply planning_loop_resolution_zero; [exact Hres | discriminate].
Qed.

End ResolutionZero.

Lemma planning_resolution_zero_witness :
  let rs := {| ints := []; reals := [] |} in
  path_resolution zero_resolution_rrt = 0 /\
  planning zero_resolution_rrt rs = Raise ZeroDivisionError.
Proof.
  intros rs. split; [reflexivity |].
  destruct (planning_resolution_zero zero_resolution_rrt rs eq_refl)
    as [Hraise | [rs1 Hnone]]; [exact Hraise |].
  exfalso. revert Hnone. unfold planning.
  change (Z.to_nat (max_iter (set_node_list zero_resolution_rrt
                                [start zero_resolution_rrt])))
    with 10%nat.
  rewrite planning_loop_S.
  change (get_random_node
            (set_node_list zero_resolution_rrt [start zero_resolution_rrt])
            rs)
    with (Node_init 0.5 0, rs).
  cbv beta iota.
  rewrite planning_body_resolution_zero; [| reflexivity | discriminate].
  destruct (Rgt_dec _ _) as [Hfar | _]; [| discriminate].
  exfalso.
  change (end_ (set_node_list zero_resolution_rrt
                  [start zero_resolution_rrt]))
    with (Node_init 0.5 0) in Hfar.
  rewrite goal_sample_distance in Hfar.
  assert (H : 0 <= SamplingRadius
                     (set_node_list zero_resolution_rrt
                        [start zero_resolution_rrt]))
    by (simpl; apply sqrt_pos).
  lra.
Defined.

(** *** What a turn can do to the planner *)

(** A turn leaves the planner as it was, or relaxed, or extended by the
    node steered from one of its nodes. *)
Lemma planning_body_step
    (self : RRT.t) (rnd_node : Node) (flow : Flow) (self1 : RRT.t) :
  planning_body self rnd_node = Ok (flow, self1) ->
  self1 = self \/ self1 = relaxed self \/
  exists nearest_node new_node,
    In nearest_node (node_list self) /\
    steer self nearest_node rnd_node (expand_dis self) = Ok new_node /\
    check_collision (Some new_node) (obstacle_list self) = Ok true /\
    self1 = extended self new_node.
Proof.
  intros H. apply planning_body_cases in H.
  destruct H as [[_ [_ ->]] | [_ [i [nearest [new_node [_ [Hnth [Hnew H]]]]]]]];
    [left; reflexivity |].
  destruct H as [[_ [_ ->]] | [Hfree [-> _]]];
    [right; left; reflexivity |].
  right. right. exists nearest, new_node.
  split; [apply (nth_error_In _ _ Hnth) |].
  split; [exact Hnew |]. split; [exact Hfree | reflexivity].
Qed.

Section Frame.

Context {Gen : Type} {random : Random Gen}.

(** X7: [planning] writes [node_list] and [SamplingRadius] and nothing
    else: the planner it leaves has the start, the goal, the sampling
    bounds, the step length, the resolution, the goal sample rate, the
    budget, the obstacles and the two expansion constants it was given. *)
Theorem planning_keeps_configuration
    (self : RRT.t) (rs : Gen) (result : option (list (R * R)))
    (self1 : RRT.t) (rs1 : Gen) :
  planning self rs = Ok (result, self1, rs1) ->
  same_configuration self1 self.
Proof.
  unfold planning.
  apply (planning_loop_invariant (fun s => same_configuration s self)).
  - intros s rnd_node flow s1 Hs Hb.
    destruct (planning_body_step _ _ _ _ Hb)
      as [-> | [-> | [nearest [new_node [_ [_ [_ ->]]]]]]]; exact Hs.
  - repeat split.
Qed.

Lemma planning_loop_tree_size
    (budget : nat) (self : RRT.t) (rs : Gen)
    (result : option (list (R * R))) (self1 : RRT.t) (rs1 : Gen) :
  planning_loop budget self rs = Ok (result, self1, rs1) ->
  (length (node_list self) <= length (node_list self1)
   <= length (node_list self) + budget)%nat.
Proof.
  revert self rs. induction budget as [| budget IH]; intros self rs H.
  - injection H as <- <- <-. lia.
  - rewrite planning_loop_S in H.
    destruct (get_random_node self rs) as [rnd_node rs2].
    destruct (planning_body self rnd_node) as [[flow self2] | e] eqn:Hb;
      [| discriminate H].
    cbn [bind] in H.
    assert (Hstep : (length (node_list self) <= length (node_list self2)
                     <= length (node_list self) + 1)%nat).
    { destruct (planning_body_step _ _ _ _ Hb)
        as [-> | [-> | [nearest [new_node [_ [_ [_ ->]]]]]]];
        [lia | simpl; lia |].
      change (node_list (extended self new_node))
        with (node_list self ++ [new_node]).
      rewrite length_app. simpl. lia. }
    destruct flow as [| path].
    + apply IH in H. lia.
    + injection H as <- <- <-. lia.
Qed.

(** X8: the tree [planning] leaves has at least one node, the start, and at
    most one node more than the budget [max_iter]: a turn appends at most
    one node. *)
Theorem planning_tree_size
    (self : RRT.t) (rs : Gen) (result : option (list (R * R)))
    (self1 : RRT.t) (rs1 : Gen) :
  planning self rs = Ok (result, self1, rs1) ->
  nth_error (node_list self1) 0 = Some (start self) /\
  (1 <= length (node_list self1) <= 1 + Z.to_nat (max_iter self))%nat.
Proof.
  intros H. split.
  - revert H. unfold planning.
    apply (planning_loop_invariant
             (fun s => nth_error (node_list s) 0 = Some (start self)));
      [| reflexivity].
    intros s rnd_node flow s1 Hs Hb.
    destruct (planning_body_keeps _ _ _ _ Hb)
      as [_ [_ [_ [_ [_ [_ [_ [added Hadd]]]]]]]].
    rewrite Hadd. destruct (node_list s); [discriminate Hs | exact Hs].
  - unfold planning in H. apply planning_loop_tree_size in H.
    simpl in H. lia.
Qed.

End Frame.

Lemma planning_keeps_configuration_witness :
  let rs := {| ints := []; reals := [] |} in
  let self1 := extended (set_node_list near_goal_rrt [start near_goal_rrt])
                        near_goal_node in
  planning near_goal_rrt rs = Ok (Some [(0.5, 0); (0.4, 0); (0, 0)], self1, rs)
  /\ same_configuration self1 near_goal_rrt.
Proof.
  intros rs self1. split; [exact near_goal_planning |].
  exact (planning_keeps_configuration near_goal_rrt rs _ self1 rs
           near_goal_planning).
Defined.

Lemma planning_tree_size_witness :
  let rs := {| ints := []; reals := [] |} in
  let self1 := extended (set_node_list near_goal_rrt [start near_goal_rrt])
                        near_goal_node in
  planning near_goal_rrt rs = Ok (Some [(0.5, 0); (0.4, 0); (0, 0)], self1, rs)
  /\ nth_error (node_list self1) 0 = Some (start near_goal_rrt)
  /\ (1 <= length (node_list self1) <= 1 + 10)%nat.
Proof.
  intros rs self1. split; [exact near_goal_planning |].
  exact (planning_tree_size near_goal_rrt rs _ self1 rs near_goal_planning).
Defined.

(** *** The sampling radius never goes below zero *)

Lemma planning_body_radius
    (self : RRT.t) (rnd_node : Node) (flow : Flow) (self1 : RRT.t) :
  0 <= ExpansionCoeff self * ExpansionEps self ->
  0 <= SamplingRadius self ->
  planning_body self rnd_node = Ok (flow, self1) ->
  0 <= ExpansionCoeff self1 * ExpansionEps self1 /\
  0 <= SamplingRadius self1.
Proof.
  intros Hc Hr Hb.
  destruct (planning_body_step _ _ _ _ Hb)
    as [-> | [-> | [nearest [new_node [_ [_ [_ ->]]]]]]].
  - split; assumption.
  - split; [exact Hc | simpl; lra].
  - split; [exact Hc | simpl; apply sqrt_pos].
Qed.

Section Radius.

Context {Gen : Type} {random : Random Gen}.

(** X9: on a planner that starts with a sampling radius and a relaxation
    step [ExpansionCoeff * ExpansionEps] that are not negative (as
    [__init__] sets them), the sampling radius is never negative during
    [planning], so the radius test never discards a sample at the goal
    itself. *)
Theorem sampling_radius_never_negative
    (self : RRT.t) (rs : Gen) (k : nat) (self_k : RRT.t) (rs_k : Gen) :
  0 <= ExpansionCoeff self * ExpansionEps self ->
  0 <= SamplingRadius self ->
  after_turns k (set_node_list self [start self]) rs = Some (self_k, rs_k) ->
  0 <= SamplingRadius self_k /\
  ~ EuclideanDistanceOfNodes
      (end_ self_k) (Node_init (x (end_ self_k)) (y (end_ self_k)))
    > SamplingRadius self_k.
Proof.
  intros Hc Hr Hk.
  assert (Hinv : 0 <= ExpansionCoeff self_k * ExpansionEps self_k /\
                 0 <= SamplingRadius self_k).
  { revert Hk.
    apply (after_turns_invariant
             (fun s => 0 <= ExpansionCoeff s * ExpansionEps s /\
                       0 <= SamplingRadius s)).
    - intros s rnd_node flow s1 [Hcs Hrs] Hb.
      apply (planning_body_radius _ _ _ _ Hcs Hrs Hb).
    - split; [exact Hc | exact Hr]. }
  destruct Hinv as [_ Hrk].
  split; [exact Hrk |].
  rewrite goal_sample_distance. lra.
Qed.

End Radius.

Lemma sampling_radius_never_negative_witness :
  let self := blocked_rrt in
  let rs := {| ints := []; reals := [] |} in
  let self_2 := relaxed_times 2 (set_node_list self [start self]) in
  (0 <= ExpansionCoeff self * ExpansionEps self /\
   0 <= SamplingRadius self /\
   after_turns 2 (set_node_list self [start self]) rs = Some (self_2, rs)) /\
  0 <= SamplingRadius self_2 /\
  ~ EuclideanDistanceOfNodes
      (end_ self_2) (Node_init (x (end_ self_2)) (y (end_ self_2)))
    > SamplingRadius self_2.
Proof.
  intros self rs self_2.
  assert (Hc : 0 <= ExpansionCoeff self * ExpansionEps self)
    by (simpl; lra).
  assert (Hr : 0 <= SamplingRadius self) by (simpl; apply sqrt_pos).
  assert (Hk := proj2 (blocked_rrt_turns 2)).
  split; [repeat split; [exact Hc | exact Hr | exact Hk] |].
  exact (sampling_radius_never_negative self rs 2 self_2 rs Hc Hr Hk).
Defined.

(** *** A step length below the resolution *)

Lemma steer_no_step (self : RRT.t) (from_node to_node : Node) (L : R)
    (n : Node) :
  0 < path_resolution self -> L < path_resolution self ->
  steer self from_node to_node L = Ok n ->
  x n = x from_node /\ y n = y from_node.
Proof.
  intros Hres HL Hn. apply steer_Ok_inv in Hn.
  destruct Hn as [_ [Hx [Hy _]]].
  assert (Hk : Z.to_nat (n_expand self from_node to_node L) = O).
  { unfold n_expand. rewrite Rgt_dec_Rmin.
    set (e := Rmin L (fst (calc_distance_and_angle from_node to_node))).
    assert (He : e <= L) by apply Rmin_l.
    assert (Hq : e / path_resolution self < 1).
    { apply (Rmult_lt_reg_r (path_resolution self)); [exact Hres |].
      unfold Rdiv. rewrite Rmult_assoc, Rinv_l by lra. lra. }
    destruct (Zfloor_bound (e / path_resolution self)) as [Hlo _].
    assert (Hz : (Zfloor (e / path_resolution self) < 1)%Z)
      by (apply lt_IZR; lra).
    lia. }
  rewrite Hk in Hx, Hy. simpl in Hx, Hy. split; lra.
Qed.

Section ShortStep.

Context {Gen : Type} {random : Random Gen}.

(** X10: when [expand_dis] is below a positive [path_resolution], [steer]
    takes no step, so the tree never leaves the start: every node of the
    tree [planning] leaves is at the position of the start. *)
Theorem planning_stuck_below_resolution
    (self : RRT.t) (rs : Gen) (result : option (list (R * R)))
    (self1 : RRT.t) (rs1 : Gen) :
  0 < path_resolution self -> expand_dis self < path_resolution self ->
  planning self rs = Ok (result, self1, rs1) ->
  forall n, In n (node_list self1) ->
    x n = x (start self) /\ y n = y (start self).
Proof.
  intros Hres HE. unfold planning.
  intros H.
  assert (Hinv : path_resolution self1 = path_resolution self /\
                 expand_dis self1 = expand_dis self /\
                 forall n, In n (node_list self1) ->
                   x n = x (start self) /\ y n = y (start self));
    [| apply Hinv].
  revert H.
  apply (planning_loop_invariant
           (fun s => path_resolution s = path_resolution self /\
                     expand_dis s = expand_dis self /\
                     forall n, In n (node_list s) ->
                       x n = x (start self) /\ y n = y (start self))).
  - intros s rnd_node flow s1 [Hr [He Hpos]] Hb.
    destruct (planning_body_step _ _ _ _ Hb)
      as [-> | [-> | [nearest [new_node [Hin [Hnew [_ ->]]]]]]].
    + repeat split; try assumption; apply Hpos; assumption.
    + repeat split; try assumption; apply Hpos; assumption.
    + split; [exact Hr |]. split; [exact He |].
      intros n Hn.
      change (node_list (extended s new_node))
        with (node_list s ++ [new_node]) in Hn.
      apply in_app_or in Hn. destruct Hn as [Hn | [<- | []]].
      * apply Hpos, Hn.
      * apply steer_no_step in Hnew; [| rewrite Hr; exact Hres
                                       | rewrite Hr, He; exact HE].
        destruct Hnew as [Hx Hy]. destruct (Hpos _ Hin) as [Hx' Hy'].
        split; congruence.
  - split; [reflexivity |]. split; [reflexivity |].
    intros n [<- | []]. split; reflexivity.
Qed.

End ShortStep.

Lemma planning_stuck_below_resolution_witness :
  let rs := {| ints := []; reals := [] |} in
  (0 < path_resolution short_step_rrt /\
   expand_dis short_step_rrt < path_resolution short_step_rrt) /\
  exists result self1 rs1,
    planning short_step_rrt rs = Ok (result, self1, rs1) /\
    forall n, In n (node_list self1) -> x n = 0 /\ y n = 0.
Proof.
  intros rs.
  assert (Hres : 0 < path_resolution short_step_rrt).
  { simpl. unfold Defaults.path_resolution. lra. }
  assert (HE : expand_dis short_step_rrt < path_resolution short_step_rrt).
  { simpl. lra. }
  split; [split; [exact Hres | exact HE] |].
  destruct (planning_loop_total
              (Z.to_nat (max_iter short_step_rrt))
              (set_node_list short_step_rrt [start short_step_rrt]) rs)
    as [result [self1 [rs1 Hplan]]];
    [simpl; lra | discriminate |].
  exists result, self1, rs1. split; [exact Hplan |].
  exact (planning_stuck_below_resolution short_step_rrt rs result self1 rs1
           Hres HE Hplan).
Defined.

(** *** The nodes of the tree are free of collision *)

Lemma py_min_is_minimum (l : list R) (m : R) :
  py_min l = Ok m -> is_minimum m l.
Proof.
  intros Hm. destruct l as [| a l]; [discriminate Hm |].
  destruct (py_min_spec (a :: l)) as [m' [Hm' Hmin]]; [discriminate |].
  rewrite Hm in Hm'. apply Ok_inj in Hm'. subst m'. exact Hmin.
Qed.

Lemma check_obstacles_free_points (n : Node) (obs : list Obstacle) :
  check_obstacles n obs = Ok true ->
  forall ox oy size, In (ox, oy, size) obs ->
  forall p, In p (path_points n) ->
    (size + InflationRadius) ^ 2 < (ox - fst p) ^ 2 + (oy - snd p) ^ 2.
Proof.
  induction obs as [| [[ox' oy'] size'] rest IH]; intros H ox oy size Hin;
    [destruct Hin |].
  simpl in H. apply bind_Ok in H. destruct H as [m [Hm H]].
  destruct (Rle_dec m ((size' + InflationRadius) ^ 2)) as [Hle | Hgt];
    [discriminate H |].
  destruct Hin as [Heq | Hin]; [| apply (IH H _ _ _ Hin)].
  injection Heq as -> -> ->. intros p Hp.
  apply py_min_is_minimum in Hm. destruct Hm as [_ Hall].
  rewrite d_list_squared_distances in Hall.
  specialize (Hall ((ox - fst p) ^ 2 + (oy - snd p) ^ 2)).
  assert (Hd : In ((ox - fst p) ^ 2 + (oy - snd p) ^ 2)
                  (squared_distances ox oy (path_points n))).
  { unfold squared_distances.
    apply (in_map (fun q => (ox - fst q) ^ 2 + (oy - snd q) ^ 2)), Hp. }
  specialize (Hall Hd). lra.
Qed.

Section FreeTree.

Context {Gen : Type} {random : Random Gen}.

(** X11: every node of the tree [planning] leaves, the start apart, passed
    [check_collision]: each point of its recorded path is outside every
    obstacle inflated by [InflationRadius].  (The start is never tested.) *)
Theorem tree_nodes_collision_free
    (self : RRT.t) (rs : Gen) (result : option (list (R * R)))
    (self1 : RRT.t) (rs1 : Gen) :
  planning self rs = Ok (result, self1, rs1) ->
  forall i n, nth_error (node_list self1) (S i) = Some n ->
    check_collision (Some n) (obstacle_list self) = Ok true /\
    forall ox oy size, In (ox, oy, size) (obstacle_list self) ->
    forall p, In p (path_points n) ->
      (size + InflationRadius) ^ 2 < (ox - fst p) ^ 2 + (oy - snd p) ^ 2.
Proof.
  intros H.
  assert (Hinv : obstacle_list self1 = obstacle_list self /\
                 forall i n, nth_error (node_list self1) (S i) = Some n ->
                   check_collision (Some n) (obstacle_list self) = Ok true).
  { revert H. unfold planning.
    apply (planning_loop_invariant
             (fun s => obstacle_list s = obstacle_list self /\
                       forall i n, nth_error (node_list s) (S i) = Some n ->
                         check_collision (Some n) (obstacle_list self)
                         = Ok true)).
    - intros s rnd_node flow s1 [Ho Hfree] Hb.
      destruct (planning_body_step _ _ _ _ Hb)
        as [-> | [-> | [nearest [new_node [_ [_ [Hnew ->]]]]]]].
      + split; assumption.
      + split; assumption.
      + split; [exact Ho |]. intros i n Hn.
        change (node_list (extended s new_node))
          with (node_list s ++ [new_node]) in Hn.
        destruct (Nat.lt_ge_cases (S i) (length (node_list s))) as [Hlt | Hge].
        * rewrite nth_error_app1 in Hn by exact Hlt. apply (Hfree i n Hn).
        * rewrite nth_error_app2 in Hn by exact Hge.
          destruct (S i - length (node_list s))%nat as [| [| m]];
            simpl in Hn; try discriminate Hn.
          injection Hn as <-. rewrite <- Ho. exact Hnew.
    - split; [reflexivity |]. intros i n Hn.
      destruct i; discriminate Hn. }
  destruct Hinv as [_ Hfree]. intros i n Hn.
  specialize (Hfree i n Hn). split; [exact Hfree |].
  apply check_obstacles_free_points. exact Hfree.
Qed.

End FreeTree.

(** Conversely, a node whose recorded points are all outside the inflated
    obstacles passes the test. *)
Lemma check_obstacles_all_far (n : Node) (obs : list Obstacle) :
  path_points n <> [] ->
  (forall ox oy size, In (ox, oy, size) obs ->
   forall p, In p (path_points n) ->
     (size + InflationRadius) ^ 2 < (ox - fst p) ^ 2 + (oy - snd p) ^ 2) ->
  check_obstacles n obs = Ok true.
Proof.
  intros Hne Hfar.
  destruct (check_obstacles_spec n obs Hne) as [b [Hb Hiff]].
  rewrite Hb. f_equal. apply Hiff.
  intros ox oy size Hin.
  assert (Hd : squared_distances ox oy (path_points n) <> []).
  { unfold squared_distances.
    destruct (path_points n); [contradiction Hne; reflexivity | discriminate]. }
  destruct (py_min_spec _ Hd) as [m [_ Hmin]].
  exists m. split; [exact Hmin |].
  destruct Hmin as [Hm _]. unfold squared_distances in Hm.
  apply in_map_iff in Hm. destruct Hm as [p [<- Hp]].
  apply (Hfar _ _ _ Hin p Hp).
Qed.

(** A turn that returns a path, from what its tests answer. *)
Lemma planning_body_returns
    (self : RRT.t) (rnd_node : Node) (nearest_ind : nat)
    (nearest_node new_node final_node : Node) :
  ~ EuclideanDistanceOfNodes (end_ self) rnd_node > SamplingRadius self ->
  get_nearest_node_index (node_list self) rnd_node = Ok nearest_ind ->
  nth_error (node_list self) nearest_ind = Some nearest_node ->
  steer self nearest_node rnd_node (expand_dis self) = Ok new_node ->
  check_collision (Some new_node) (obstacle_list self) = Ok true ->
  calc_dist_to_goal self (x new_node) (y new_node) <= expand_dis self ->
  steer self new_node (end_ self) (expand_dis self) = Ok final_node ->
  check_collision (Some final_node) (obstacle_list self) = Ok true ->
  planning_body self rnd_node
  = Ok (Return ((x (end_ self), y (end_ self)) :: course_from new_node),
        extended self new_node).
Proof.
  intros Hnear Hi Hnth Hnew Hfree Hclose Hfinal Hff.
  unfold planning_body.
  destruct (Rgt_dec _ _) as [Hfar | _]; [contradiction |].
  rewrite Hi. cbn [bind].
  apply py_getitem_Ok in Hnth. rewrite Hnth. cbn [bind].
  rewrite Hnew. cbn [bind]. rewrite Hfree. cbn [bind].
  fold_extended self new_node.
  rewrite py_last_app. cbn [bind].
  change (calc_dist_to_goal (extended self new_node))
    with (calc_dist_to_goal self).
  change (expand_dis (extended self new_node)) with (expand_dis self).
  change (end_ (extended self new_node)) with (end_ self).
  change (obstacle_list (extended self new_node)) with (obstacle_list self).
  destruct (Rle_dec _ _) as [_ | Hn]; [| contradiction].
  rewrite (steer_resolution (extended self new_node) self) by reflexivity.
  rewrite Hfinal. cbn [bind]. rewrite Hff. cbn [bind].
  rewrite generate_final_course_extended. reflexivity.
Qed.

(** The last hop of the scenario: from (0.4, 0) to the goal (0.5, 0). *)
Lemma steer_last_hop (self : RRT.t) (to_node : Node) :
  path_resolution self = 0.2 ->
  x to_node = 0.5 -> y to_node = 0 ->
  steer self near_goal_node to_node 0.8
  = Ok (mkNode 0.4 0 [0.4; 0.5] [0; 0] (Some near_goal_node)).
Proof.
  intros Hres Htx Hty.
  unfold steer, calc_distance_and_angle.
  cbn [x y path_x path_y parent Node_init near_goal_node].
  rewrite Hres, Htx, Hty.
  replace (0.5 - 0.4) with 0.1 by lra. replace (0 - 0) with 0 by lra.
  rewrite hypot_x by lra. rewrite atan2_x by lra.
  destruct (Rgt_dec 0.8 0.1) as [_ | H]; [| lra].
  unfold py_div. destruct (Req_dec_T 0.2 0) as [H | _]; [lra |].
  cbn [bind].
  rewrite (Zfloor_eq 0 (0.1 / 0.2)) by lra.
  change (Z.to_nat 0) with 0%nat.
  cbn [steer_loop x y path_x path_y parent app].
  replace (0.5 - 0.4) with 0.1 by lra. replace (0 - 0) with 0 by lra.
  rewrite hypot_x by lra.
  destruct (Rle_dec 0.1 0.2) as [_ | H]; [| lra].
  reflexivity.
Qed.

Lemma far_obstacle_free (n : Node) :
  path_points n <> [] ->
  (forall p, In p (path_points n) -> 0 <= fst p <= 1 /\ snd p = 0) ->
  check_collision (Some n) (obstacle_list far_obstacle_rrt) = Ok true.
Proof.
  intros Hne Hpts. apply check_obstacles_all_far; [exact Hne |].
  intros ox oy size [Heq | []] p Hp. injection Heq as <- <- <-.
  destruct (Hpts p Hp) as [Hx Hy]. rewrite Hy.
  unfold InflationRadius. nra.
Qed.

Lemma far_obstacle_planning :
  let rs := {| ints := []; reals := [] |} in
  planning far_obstacle_rrt rs
  = Ok (Some [(0.5, 0); (0.4, 0); (0, 0)],
        extended (set_node_list far_obstacle_rrt [start far_obstacle_rrt])
                 near_goal_node,
        rs).
Proof.
  intros rs. unfold planning.
  set (self := set_node_list far_obstacle_rrt [start far_obstacle_rrt]).
  change (Z.to_nat (max_iter self)) with 10%nat.
  rewrite planning_loop_S.
  change (get_random_node self rs) with (Node_init 0.5 0, rs).
  cbv beta iota.
  destruct (get_nearest_node_index_spec (node_list self) (Node_init 0.5 0))
    as [i [nearest [Hi [Hlt Hnth]]]]; [discriminate |].
  assert (i = O) by (simpl in Hlt; lia). subst i.
  rewrite (planning_body_returns self _ O (start far_obstacle_rrt)
             near_goal_node
             (mkNode 0.4 0 [0.4; 0.5] [0; 0] (Some near_goal_node))).
  - reflexivity.
  - change (end_ self) with (Node_init 0.5 0).
    rewrite goal_sample_distance.
    assert (0 <= SamplingRadius self) by (simpl; apply sqrt_pos). lra.
  - exact Hi.
  - reflexivity.
  - change (expand_dis self) with 0.8. apply steer_along_x; reflexivity.
  - apply far_obstacle_free; [discriminate |].
    intros p Hp. simpl in Hp.
    destruct Hp as [<- | [<- | [<- | [<- | []]]]]; simpl; lra.
  - unfold calc_dist_to_goal. simpl.
    replace (0.4 - 0.5) with (- 0.1) by lra. replace (0 - 0) with 0 by lra.
    unfold hypot. replace (- 0.1 * - 0.1 + 0 * 0) with (0.1 * 0.1) by lra.
    rewrite sqrt_square by lra. unfold Defaults.expand_dis. lra.
  - change (expand_dis self) with 0.8. apply steer_last_hop; reflexivity.
  - apply far_obstacle_free; [discriminate |].
    intros p Hp. simpl in Hp.
    destruct Hp as [<- | [<- | []]]; simpl; lra.
Qed.

Lemma tree_nodes_collision_free_witness :
  let rs := {| ints := []; reals := [] |} in
  let self1 :=
    extended (set_node_list far_obstacle_rrt [start far_obstacle_rrt])
             near_goal_node in
  (planning far_obstacle_rrt rs
   = Ok (Some [(0.5, 0); (0.4, 0); (0, 0)], self1, rs) /\
   nth_error (node_list self1) 1 = Some near_goal_node) /\
  check_collision (Some near_goal_node) [(10, 10, 1)] = Ok true /\
  forall ox oy size, In (ox, oy, size) [(10, 10, 1)] ->
  forall p, In p [(0, 0); (0.2, 0); (0.4, 0); (0.5, 0)] ->
    (size + InflationRadius) ^ 2 < (ox - fst p) ^ 2 + (oy - snd p) ^ 2.
Proof.
  intros rs self1.
  split; [split; [exact far_obstacle_planning | reflexivity] |].
  exact (tree_nodes_collision_free far_obstacle_rrt rs _ self1 rs
           far_obstacle_planning 0%nat near_goal_node eq_refl).
Defined.

(** *** The shape of the returned path *)

(** Induction along the parents of a node. *)
Lemma Node_parent_ind (P : Node -> Prop) :
  (forall n, parent n = None -> P n) ->
  (forall n p, parent n = Some p -> P p -> P n) ->
  forall n, P n.
Proof.
  intros Hroot Hstep. fix IH 1. intros [nx ny px py [p |]].
  - apply (Hstep (mkNode nx ny px py (Some p)) p); [reflexivity | apply IH].
  - apply Hroot. reflexivity.
Qed.

Lemma hops_within_parent (E : R) (n p : Node) :
  parent n = Some p ->
  hops_within E n <->
  EuclideanDistanceOfNodes n p <= E /\ hops_within E p.
Proof.
  destruct n as [nx ny px py [q |]]; simpl; intros H;
    [| discriminate H].
  injection H as ->. unfold EuclideanDistanceOfNodes. simpl. reflexivity.
Qed.

Lemma hops_within_root (E : R) (n : Node) :
  parent n = None -> hops_within E n.
Proof.
  destruct n as [nx ny px py [q |]]; simpl; intros H;
    [discriminate H | exact I].
Qed.

Lemma course_from_head (n : Node) :
  exists rest, course_from n = (x n, y n) :: rest.
Proof.
  destruct n as [nx ny px py [q |]]; simpl; eexists; reflexivity.
Qed.

(** Along the walk up the parents, consecutive positions are the two ends
    of a hop. *)
Lemma course_from_hops (E : R) (n : Node) :
  hops_within E n ->
  forall i p q,
    nth_error (course_from n) i = Some p ->
    nth_error (course_from n) (S i) = Some q ->
    EuclideanDistanceOfNodes (Node_init (fst p) (snd p))
                             (Node_init (fst q) (snd q)) <= E.
Proof.
  induction n as [n Hroot | n par Hpar IH] using Node_parent_ind;
    intros Hhops i p q Hp Hq.
  - rewrite (course_from_root _ Hroot) in Hq.
    destruct i; discriminate Hq.
  - rewrite (course_from_parent _ _ Hpar) in Hp, Hq.
    apply (hops_within_parent _ _ _ Hpar) in Hhops.
    destruct Hhops as [Hd Hrest].
    destruct i as [| i].
    + simpl in Hp, Hq. injection Hp as <-.
      destruct (course_from_head par) as [rest Hrest'].
      rewrite Hrest' in Hq. simpl in Hq. injection Hq as <-.
      exact Hd.
    + simpl in Hp, Hq. apply (IH Hrest i p q Hp Hq).
Qed.

Lemma hops_walked_parent (self : RRT.t) (m : nat) (n p : Node) :
  parent n = Some p ->
  hops_walked self m n <->
  (exists theta k,
      (k <= m)%nat /\ (x n, y n) = walked_point self p theta k) /\
  hops_walked self m p.
Proof.
  destruct n as [nx ny px py [q |]]; simpl; intros H;
    [| discriminate H].
  injection H as ->. reflexivity.
Qed.

Lemma hops_walked_root (self : RRT.t) (m : nat) (n : Node) :
  parent n = None -> hops_walked self m n.
Proof.
  destruct n as [nx ny px py [q |]]; simpl; intros H;
    [discriminate H | exact I].
Qed.

Lemma walked_point_resolution (self self' : RRT.t) (from_node : Node)
    (theta : R) (i : nat) :
  path_resolution self = path_resolution self' ->
  walked_point self from_node theta i = walked_point self' from_node theta i.
Proof. intros H. unfold walked_point. rewrite H. reflexivity. Qed.

(** With a positive [path_resolution], [steer] takes at most
    [floor(extend_length / path_resolution)] steps: the distance to the
    target can only shorten the way. *)
Lemma steer_steps_bound (self : RRT.t) (from_node to_node : Node) (L : R)
    (n : Node) :
  0 < path_resolution self ->
  steer self from_node to_node L = Ok n ->
  parent n = Some from_node /\
  exists theta k,
    (k <= Z.to_nat (Zfloor (L / path_resolution self)))%nat /\
    (x n, y n) = walked_point self from_node theta k.
Proof.
  intros Hres Hn.
  destruct (steer_walked _ _ _ _ _ Hn) as [Hpos [_ [_ Hpar]]].
  split; [exact Hpar |].
  eexists _, _. split; [| exact Hpos].
  unfold n_expand.
  set (d := fst (calc_distance_and_angle from_node to_node)).
  assert (Hinv : 0 < / path_resolution self)
    by (apply Rinv_0_lt_compat; exact Hres).
  assert (Hq : (if Rgt_dec L d then d else L) / path_resolution self
               <= L / path_resolution self).
  { unfold Rdiv. destruct (Rgt_dec L d) as [Hgt | _]; nra. }
  apply Zfloor_le in Hq. lia.
Qed.

Lemma extended_list_differs (self : RRT.t) (new_node : Node) :
  node_list (extended self new_node) <> node_list self.
Proof.
  change (node_list (extended self new_node))
    with (node_list self ++ [new_node]).
  intros H. apply (f_equal (@length Node)) in H.
  rewrite length_app in H. simpl in H. lia.
Qed.

(** A turn that returns a path: the node it appended and what was tested. *)
Lemma planning_body_return_inv
    (self : RRT.t) (rnd_node : Node) (path : list (R * R)) (self1 : RRT.t) :
  planning_body self rnd_node = Ok (Return path, self1) ->
  exists nearest_node new_node,
    In nearest_node (node_list self) /\
    steer self nearest_node rnd_node (expand_dis self) = Ok new_node /\
    self1 = extended self new_node /\
    path = (x (end_ self), y (end_ self)) :: course_from new_node /\
    calc_dist_to_goal self (x new_node) (y new_node) <= expand_dis self.
Proof.
  intros Hb.
  assert (Hne : node_list self1 <> node_list self).
  { destruct (planning_body_cases _ _ _ _ Hb)
      as [[_ [H _]] | [_ [i [nearest [new_node [_ [_ [_ H]]]]]]]];
      [discriminate H |].
    destruct H as [[_ [H _]] | [_ [-> _]]]; [discriminate H |].
    apply extended_list_differs. }
  destruct (planning_body_append_inv _ _ _ _ Hb Hne)
    as [nearest [new_node [Hin [_ [Hnew [_ [Hs Hret]]]]]]].
  destruct (Hret path eq_refl) as [Hpath [Hclose _]].
  exists nearest, new_node. repeat split; assumption.
Qed.

Section ReturnedPath.

Context {Gen : Type} {random : Random Gen}.

(** The turn in which the loop returned its path. *)
Lemma planning_loop_returning_turn (P : RRT.t -> Prop) :
  (forall self rnd_node flow self1,
     P self -> planning_body self rnd_node = Ok (flow, self1) -> P self1) ->
  forall budget self rs path self1 rs1,
    P self ->
    planning_loop budget self rs = Ok (Some path, self1, rs1) ->
    exists s rnd_node,
      P s /\ planning_body s rnd_node = Ok (Return path, self1).
Proof.
  intros Hbody. induction budget as [| budget IH];
    intros self rs path self1 rs1 HP H; [discriminate H |].
  rewrite planning_loop_S in H.
  destruct (get_random_node self rs) as [rnd_node rs2].
  destruct (planning_body self rnd_node) as [[flow self2] | e] eqn:Hb;
    [| discriminate H].
  cbn [bind] in H. destruct flow as [| path'].
  - apply (IH _ _ _ _ _ (Hbody _ _ _ _ HP Hb) H).
  - injection H as <- <- <-. exists self, rnd_node. split; assumption.
Qed.

(** X12: when [planning] returns a path, the path is the goal followed by
    the positions from the last node of the tree up its parents; that last
    node is within [expand_dis] of the goal, the sampling radius is left at
    its distance to the goal, and the path has at least three points. *)
Theorem planning_path_structure
    (self : RRT.t) (rs : Gen) (path : list (R * R)) (self1 : RRT.t)
    (rs1 : Gen) :
  planning self rs = Ok (Some path, self1, rs1) ->
  exists tip,
    py_last (node_list self1) = Ok tip /\
    path = (x (end_ self), y (end_ self)) :: course_from tip /\
    calc_dist_to_goal self (x tip) (y tip) <= expand_dis self /\
    SamplingRadius self1 = EuclideanDistanceOfNodes tip (end_ self) /\
    (3 <= length path)%nat.
Proof.
  intros H. unfold planning in H.
  apply (planning_loop_returning_turn
           (fun s => end_ s = end_ self /\ expand_dis s = expand_dis self))
    in H.
  - destruct H as [s [rnd_node [[He HE] Hb]]].
    apply planning_body_return_inv in Hb.
    destruct Hb as [nearest [tip [_ [Hnew [-> [-> Hclose]]]]]].
    exists tip.
    split; [apply py_last_app |].
    split; [rewrite He; reflexivity |].
    split.
    { rewrite <- HE. unfold calc_dist_to_goal in *. rewrite <- He.
      exact Hclose. }
    split; [simpl; rewrite He; reflexivity |].
    apply steer_Ok_inv in Hnew. destruct Hnew as [_ [_ [_ [_ Hpar]]]].
    rewrite (course_from_parent _ _ Hpar).
    destruct (course_from_head nearest) as [rest ->]. simpl. lia.
  - intros s rnd_node flow s1 [He HE] Hb.
    destruct (planning_body_keeps _ _ _ _ Hb) as [_ [He1 [_ [HE1 _]]]].
    split; congruence.
  - split; reflexivity.
Qed.

(** In exact arithmetic, on a planner with a positive [path_resolution] and
    a non-negative [expand_dis] whose start has no parent, any two
    consecutive points of the path [planning] returns are at most
    [expand_dis] apart. *)
Lemma planning_path_hops_exact
    (self : RRT.t) (rs : Gen) (path : list (R * R)) (self1 : RRT.t)
    (rs1 : Gen) :
  0 < path_resolution self -> 0 <= expand_dis self ->
  parent (start self) = None ->
  planning self rs = Ok (Some path, self1, rs1) ->
  forall i p q,
    nth_error path i = Some p -> nth_error path (S i) = Some q ->
    EuclideanDistanceOfNodes (Node_init (fst p) (snd p))
                             (Node_init (fst q) (snd q))
    <= expand_dis self.
Proof.
  intros Hres HE Hroot H. unfold planning in H.
  apply (planning_loop_returning_turn
           (fun s => end_ s = end_ self /\ expand_dis s = expand_dis self /\
                     path_resolution s = path_resolution self /\
                     forall n, In n (node_list s) ->
                       hops_within (expand_dis self) n))
    in H.
  - destruct H as [s [rnd_node [[He [HEs [Hrs Hhops]]] Hb]]].
    apply planning_body_return_inv in Hb.
    destruct Hb as [nearest [tip [Hin [Hnew [-> [-> Hclose]]]]]].
    assert (Htip : hops_within (expand_dis self) tip).
    { destruct (steered_distance s nearest rnd_node (expand_dis s) tip)
        as [_ [Hle [_ Hpar]]]; try assumption; try (rewrite Hrs; exact Hres);
        try (rewrite HEs; exact HE).
      apply (hops_within_parent _ _ _ Hpar).
      split; [rewrite <- HEs; exact Hle | apply Hhops, Hin]. }
    intros i p q Hp Hq. destruct i as [| i].
    + simpl in Hp, Hq. injection Hp as <-.
      destruct (course_from_head tip) as [rest Hrest].
      rewrite Hrest in Hq. simpl in Hq. injection Hq as <-.
      rewrite <- HEs. unfold calc_dist_to_goal in Hclose.
      rewrite EuclideanDistanceOfNodes_hypot. simpl. exact Hclose.
    + simpl in Hp, Hq. apply (course_from_hops _ _ Htip i p q Hp Hq).
  - intros s rnd_node flow s1 [He [HEs [Hrs Hhops]]] Hb.
    destruct (planning_body_keeps _ _ _ _ Hb) as [_ [He1 [Hr1 [HE1 _]]]].
    split; [congruence |]. split; [congruence |]. split; [congruence |].
    destruct (planning_body_step _ _ _ _ Hb)
      as [-> | [-> | [nearest [new_node [Hin [Hnew [_ ->]]]]]]];
      try exact Hhops.
    intros n Hn.
    change (node_list (extended s new_node))
      with (node_list s ++ [new_node]) in Hn.
    apply in_app_or in Hn. destruct Hn as [Hn | [<- | []]];
      [apply Hhops, Hn |].
    destruct (steered_distance s nearest rnd_node (expand_dis s) new_node)
      as [_ [Hle [_ Hpar]]]; try assumption; try (rewrite Hrs; exact Hres);
      try (rewrite HEs; exact HE).
    apply (hops_within_parent _ _ _ Hpar).
    split; [rewrite <- HEs; exact Hle | apply Hhops, Hin].
  - split; [reflexivity |]. split; [reflexivity |]. split; [reflexivity |].
    intros n [<- | []]. apply hops_within_root, Hroot.
Qed.

(** X13: on a planner with a positive [path_resolution] whose start has no
    parent, the path [planning] returns is the goal followed by the walk
    from a node up its parents, and every node of that walk stands where
    at most [floor(expand_dis / path_resolution)] steps of
    [path_resolution] lead from the position of its parent. *)
Theorem planning_path_hops
    (self : RRT.t) (rs : Gen) (path : list (R * R)) (self1 : RRT.t)
    (rs1 : Gen) :
  0 < path_resolution self ->
  parent (start self) = None ->
  planning self rs = Ok (Some path, self1, rs1) ->
  exists tip,
    path = (x (end_ self), y (end_ self)) :: course_from tip /\
    hops_walked self
      (Z.to_nat (Zfloor (expand_dis self / path_resolution self))) tip.
Proof.
  intros Hres Hroot H. unfold planning in H.
  set (m := Z.to_nat (Zfloor (expand_dis self / path_resolution self))).
  assert (Hstep : forall s nearest rnd_node new_node,
             expand_dis s = expand_dis self ->
             path_resolution s = path_resolution self ->
             hops_walked self m nearest ->
             steer s nearest rnd_node (expand_dis s) = Ok new_node ->
             hops_walked self m new_node).
  { intros s nearest rnd_node new_node HEs Hrs Hnear Hnew.
    destruct (steer_steps_bound s nearest rnd_node (expand_dis s) new_node)
      as [Hpar [theta [k [Hk Hpos]]]];
      [rewrite Hrs; exact Hres | exact Hnew |].
    apply (hops_walked_parent _ _ _ _ Hpar).
    split; [| exact Hnear].
    exists theta, k. split; [unfold m; rewrite <- HEs, <- Hrs; exact Hk |].
    rewrite Hpos. apply walked_point_resolution, Hrs. }
  apply (planning_loop_returning_turn
           (fun s => end_ s = end_ self /\ expand_dis s = expand_dis self /\
                     path_resolution s = path_resolution self /\
                     forall n, In n (node_list s) -> hops_walked self m n))
    in H.
  - destruct H as [s [rnd_node [[He [HEs [Hrs Hhops]]] Hb]]].
    apply planning_body_return_inv in Hb.
    destruct Hb as [nearest [tip [Hin [Hnew [-> [-> _]]]]]].
    exists tip. split; [rewrite He; reflexivity |].
    apply (Hstep s nearest rnd_node tip HEs Hrs (Hhops _ Hin) Hnew).
  - intros s rnd_node flow s1 [He [HEs [Hrs Hhops]]] Hb.
    destruct (planning_body_keeps _ _ _ _ Hb) as [_ [He1 [Hr1 [HE1 _]]]].
    split; [congruence |]. split; [congruence |]. split; [congruence |].
    destruct (planning_body_step _ _ _ _ Hb)
      as [-> | [-> | [nearest [new_node [Hin [Hnew [_ ->]]]]]]];
      try exact Hhops.
    intros n Hn.
    change (node_list (extended s new_node))
      with (node_list s ++ [new_node]) in Hn.
    apply in_app_or in Hn. destruct Hn as [Hn | [<- | []]];
      [apply Hhops, Hn |].
    apply (Hstep s nearest rnd_node new_node HEs Hrs (Hhops _ Hin) Hnew).
  - split; [reflexivity |]. split; [reflexivity |]. split; [reflexivity |].
    intros n [<- | []]. apply hops_walked_root, Hroot.
Qed.

End ReturnedPath.

Lemma planning_path_structure_witness :
  let rs := {| ints := []; reals := [] |} in
  let path := [(0.5, 0); (0.4, 0); (0, 0)] in
  let self1 := extended (set_node_list near_goal_rrt [start near_goal_rrt])
                        near_goal_node in
  planning near_goal_rrt rs = Ok (Some path, self1, rs) /\
  exists tip,
    py_last (node_list self1) = Ok tip /\
    path = (x (end_ near_goal_rrt), y (end_ near_goal_rrt))
             :: course_from tip /\
    calc_dist_to_goal near_goal_rrt (x tip) (y tip)
    <= expand_dis near_goal_rrt /\
    SamplingRadius self1
    = EuclideanDistanceOfNodes tip (end_ near_goal_rrt) /\
    (3 <= length path)%nat.
Proof.
  intros rs path self1. split; [exact near_goal_planning |].
  exact (planning_path_structure near_goal_rrt rs path self1 rs
           near_goal_planning).
Defined.

Lemma planning_path_hops_witness :
  let rs := {| ints := []; reals := [] |} in
  let path := [(0.5, 0); (0.4, 0); (0, 0)] in
  let self1 := extended (set_node_list near_goal_rrt [start near_goal_rrt])
                        near_goal_node in
  (0 < path_resolution near_goal_rrt /\
   parent (start near_goal_rrt) = None /\
   planning near_goal_rrt rs = Ok (Some path, self1, rs)) /\
  exists tip,
    path = (x (end_ near_goal_rrt), y (end_ near_goal_rrt))
             :: course_from tip /\
    hops_walked near_goal_rrt
      (Z.to_nat (Zfloor (expand_dis near_goal_rrt
                         / path_resolution near_goal_rrt)))
      tip.
Proof.
  intros rs path self1.
  split; [repeat split;
          [exact near_goal_resolution | exact near_goal_planning] |].
  exact (planning_path_hops near_goal_rrt rs path self1 rs
           near_goal_resolution eq_refl near_goal_planning).
Defined.

(** *** A goal within one step of the start *)

Section AtOnce.

Context {Gen : Type} {random : Random Gen}.

(** X14: with no obstacle, a positive [path_resolution], a sampling radius
    that is not negative and at least one turn in the budget, when the
    goal is within [expand_dis] of the start and the first draw takes the
    goal branch, [planning] returns in its first turn: the path is the
    goal, the node steered from the start towards the goal, and the
    start. *)
Theorem planning_returns_at_once (self : RRT.t) (rs : Gen) :
  obstacle_list self = [] ->
  0 < path_resolution self ->
  0 <= SamplingRadius self ->
  (0 < max_iter self)%Z ->
  parent (start self) = None ->
  EuclideanDistanceOfNodes (start self) (end_ self) <= expand_dis self ->
  (fst (randint 0 100 rs) <= goal_sample_rate self)%Z ->
  exists new_node,
    steer self (start self) (end_ self) (expand_dis self) = Ok new_node /\
    planning self rs
    = Ok (Some [(x (end_ self), y (end_ self));
                (x new_node, y new_node);
                (x (start self), y (start self))],
          extended (set_node_list self [start self]) new_node,
          snd (randint 0 100 rs)).
Proof.
  intros Hobs Hres Hrad Hiter Hroot Hd Hdraw.
  set (self0 := set_node_list self [start self]).
  set (goal := Node_init (x (end_ self)) (y (end_ self))).
  assert (Hres0 : path_resolution self0 <> 0) by (simpl; lra).
  assert (HE : 0 <= expand_dis self).
  { assert (H := sqrt_pos ((y (end_ self) - y (start self)) ^ 2
                           + (x (end_ self) - x (start self)) ^ 2)).
    unfold EuclideanDistanceOfNodes in Hd. lra. }
  destruct (steer_spec self0 (start self) goal (expand_dis self) Hres0)
    as [new_node [tx [ty [Hnew [_ [_ [_ [_ [_ Hpar]]]]]]]]].
  assert (Hgoal : forall L, steer self (start self) (end_ self) L
                            = steer self0 (start self) goal L).
  { intros L. rewrite (steer_resolution self self0) by reflexivity.
    unfold steer, calc_distance_and_angle. reflexivity. }
  exists new_node. split; [rewrite Hgoal; exact Hnew |].
  assert (Hsample : get_random_node self0 rs = (goal, snd (randint 0 100 rs))).
  { assert (H := get_random_node_branches self0 rs).
    destruct (randint 0 100 rs) as [k rs1]. simpl in Hdraw |- *.
    apply H. exact Hdraw. }
  assert (Hclose : calc_dist_to_goal self0 (x new_node) (y new_node)
                   <= expand_dis self0).
  { rewrite calc_dist_to_goal_Euclidean.
    destruct (steer_position self0 (start self) goal (expand_dis self)
                new_node) as [_ [_ [_ [[HK0 _] [_ [_ Hnt]]]]]];
      try assumption.
    rewrite EuclideanDistanceOfNodes_hypot in Hnt, Hd.
    rewrite EuclideanDistanceOfNodes_hypot.
    unfold calc_distance_and_angle in Hnt, HK0.
    simpl in Hnt, HK0, Hd |- *. lra. }
  destruct (get_nearest_node_index_spec (node_list self0) goal)
    as [i [nearest [Hi [Hlt Hnth]]]]; [discriminate |].
  assert (i = O) by (simpl in Hlt; lia). subst i.
  simpl in Hnth. injection Hnth as <-.
  unfold planning. fold self0.
  destruct (Z.to_nat (max_iter self0)) as [| budget] eqn:Hb;
    [simpl in Hb; lia |].
  rewrite planning_loop_S, Hsample.
  rewrite (planning_body_return self0 goal O (start self) new_node);
    try assumption; try reflexivity.
  - cbn [bind]. rewrite (course_from_parent _ _ Hpar).
    rewrite (course_from_root _ Hroot). reflexivity.
  - unfold goal. change (end_ self0) with (end_ self).
    rewrite goal_sample_distance. simpl. lra.
Qed.

End AtOnce.

Lemma planning_returns_at_once_witness :
  let self := near_goal_rrt in
  let rs := {| ints := []; reals := [] |} in
  (obstacle_list self = [] /\ 0 < path_resolution self /\
   0 <= SamplingRadius self /\ (0 < max_iter self)%Z /\
   parent (start self) = None /\
   EuclideanDistanceOfNodes (start self) (end_ self) <= expand_dis self /\
   (fst (randint 0 100 rs) <= goal_sample_rate self)%Z) /\
  exists new_node,
    steer self (start self) (end_ self) (expand_dis self) = Ok new_node /\
    planning self rs
    = Ok (Some [(x (end_ self), y (end_ self));
                (x new_node, y new_node);
                (x (start self), y (start self))],
          extended (set_node_list self [start self]) new_node,
          snd (randint 0 100 rs)).
Proof.
  intros self rs.
  assert (Hrad : 0 <= SamplingRadius self) by (simpl; apply sqrt_pos).
  assert (Hiter : (0 < max_iter self)%Z) by (simpl; lia).
  assert (Hd : EuclideanDistanceOfNodes (start self) (end_ self)
               <= expand_dis self).
  { change (end_ self) with (Node_init 0.5 0). unfold self.
    rewrite near_goal_distance. simpl. unfold Defaults.expand_dis. lra. }
  assert (Hdraw : (fst (randint 0 100 rs) <= goal_sample_rate self)%Z).
  { simpl. unfold Defaults.goal_sample_rate. lia. }
  split; [repeat split; try assumption; exact near_goal_resolution |].
  exact (planning_returns_at_once self rs eq_refl near_goal_resolution
           Hrad Hiter eq_refl Hd Hdraw).
Defined.

(** ** More on the collision test *)

Lemma d_list_empty (n : Node) (ox oy : R) :
  path_points n = [] -> py_min (d_list n ox oy) = Raise ValueError.
Proof.
  intros H. rewrite d_list_squared_distances, H. reflexivity.
Qed.

Lemma d_list_nonempty (n : Node) (ox oy : R) :
  path_points n <> [] -> exists m, py_min (d_list n ox oy) = Ok m.
Proof.
  intros H. rewrite d_list_squared_distances.
  destruct (path_points n) as [| p pts]; [contradiction H; reflexivity |].
  eexists. reflexivity.
Qed.

(** X15: a node without recorded points (a [Node] as it is constructed:
    the start, the goal, a sample) passes [check_collision] against an
    empty obstacle list and makes it raise [ValueError] against any
    other. *)
Theorem check_collision_empty_path (n : Node) :
  path_x n = [] \/ path_y n = [] ->
  check_collision (Some n) [] = Ok true /\
  forall ob rest, check_collision (Some n) (ob :: rest) = Raise ValueError.
Proof.
  intros Hempty. split; [reflexivity |].
  intros [[ox oy] size] rest. simpl.
  rewrite d_list_empty; [reflexivity |].
  unfold path_points. destruct Hempty as [-> | ->];
    [reflexivity | apply combine_nil].
Qed.

Lemma check_collision_empty_path_witness :
  let n := start (main_rrt 6 10 []) in
  (path_x n = [] \/ path_y n = []) /\
  check_collision (Some n) [] = Ok true /\
  check_collision (Some n) [(5, 5, 1); (3, 6, 2)] = Raise ValueError.
Proof.
  intros n. split; [left; reflexivity |].
  destruct (check_collision_empty_path n (or_introl eq_refl)) as [H0 H1].
  split; [exact H0 | apply H1].
Defined.

(** X16: testing against the obstacles [l1 ++ l2] is testing against [l1]
    and, when that finds no collision, against [l2]: a collision (or an
    exception) in [l1] is the answer whatever [l2] holds. *)
Theorem check_collision_app (n : Node) (l1 l2 : list Obstacle) :
  check_collision (Some n) (l1 ++ l2)
  = (free <- check_collision (Some n) l1 ;;
     if free : bool then check_collision (Some n) l2 else Ok false).
Proof.
  simpl. induction l1 as [| [[ox oy] size] l1 IH]; [reflexivity |].
  simpl. destruct (py_min (d_list n ox oy)) as [m | e]; [| reflexivity].
  cbn [bind]. destruct (Rle_dec m ((size + InflationRadius) ^ 2));
    [reflexivity | exact IH].
Qed.

Lemma check_obstacles_swap (n : Node) (a b : Obstacle) (l : list Obstacle) :
  check_obstacles n (a :: b :: l) = check_obstacles n (b :: a :: l).
Proof.
  destruct a as [[ax ay] asz], b as [[bx by_] bsz].
  destruct (path_points n) as [| p pts] eqn:Hpts.
  - simpl. rewrite !d_list_empty by exact Hpts. reflexivity.
  - assert (Hne : path_points n <> []) by (rewrite Hpts; discriminate).
    destruct (d_list_nonempty n ax ay Hne) as [ma Hma].
    destruct (d_list_nonempty n bx by_ Hne) as [mb Hmb].
    simpl. rewrite Hma, Hmb. cbn [bind].
    destruct (Rle_dec ma ((asz + InflationRadius) ^ 2));
      destruct (Rle_dec mb ((bsz + InflationRadius) ^ 2));
      rewrite ?Hma, ?Hmb; cbn [bind];
      repeat match goal with
             | |- context [Rle_dec ?u ?v] => destruct (Rle_dec u v)
             end;
      try reflexivity; contradiction.
Qed.

(** X17: the answer of [check_collision] does not depend on the order of
    the obstacles. *)
Theorem check_collision_permutation
    (node : option Node) (l l' : list Obstacle) :
  Permutation l l' ->
  check_collision node l = check_collision node l'.
Proof.
  intros Hperm. destruct node as [n |]; [| reflexivity]. simpl.
  induction Hperm
    as [| [[ox oy] size] l l' _ IH | a b l | l l' l'' _ IH1 _ IH2].
  - reflexivity.
  - simpl. rewrite IH. reflexivity.
  - apply check_obstacles_swap.
  - rewrite IH1. exact IH2.
Qed.

Lemma check_collision_permutation_witness :
  let node := Some near_goal_node in
  Permutation [(5, 5, 1); (3, 6, 2)] [(3, 6, 2); (5, 5, 1)] /\
  check_collision node [(5, 5, 1); (3, 6, 2)]
  = check_collision node [(3, 6, 2); (5, 5, 1)].
Proof.
  intros node.
  assert (Hperm : Permutation [(5, 5, 1); (3, 6, 2)] [(3, 6, 2); (5, 5, 1)])
    by apply perm_swap.
  split; [exact Hperm |].
  exact (check_collision_permutation node _ _ Hperm).
Defined.

(** ** More on the nearest node *)

Lemma py_index_Ok (v : R) (l : list R) (i : nat) :
  py_index v l = Ok i -> nth_error l i = Some v.
Proof.
  revert i. induction l as [| a l IH]; intros i H; [discriminate H |].
  simpl in H. destruct (Req_dec_T a v) as [-> | _].
  - apply Ok_inj in H. subst i. reflexivity.
  - apply bind_Ok in H. destruct H as [j [Hj H]].
    apply Ok_inj in H. subst i. simpl. apply IH, Hj.
Qed.

(** X18: [get_nearest_node_index] raises [ValueError] on an empty list;
    on any other it returns the index of a node whose
    [EuclideanDistanceOfNodes] to the sample is the least of the list. *)
Theorem get_nearest_node_index_nearest
    (node_list0 : list Node) (rnd_node : Node) :
  (node_list0 = [] /\
   get_nearest_node_index node_list0 rnd_node = Raise ValueError)
  \/
  (exists i n,
     get_nearest_node_index node_list0 rnd_node = Ok i /\
     nth_error node_list0 i = Some n /\
     forall m, In m node_list0 ->
       EuclideanDistanceOfNodes n rnd_node
       <= EuclideanDistanceOfNodes m rnd_node).
Proof.
  destruct node_list0 as [| a l] eqn:Hl; [left; split; reflexivity |].
  right. rewrite <- Hl.
  destruct (get_nearest_node_index_spec node_list0 rnd_node)
    as [i [n [Hi [_ Hn]]]]; [rewrite Hl; discriminate |].
  exists i, n. split; [exact Hi |]. split; [exact Hn |].
  unfold get_nearest_node_index in Hi.
  set (f := fun node : Node =>
              (x node - x rnd_node) ^ 2 + (y node - y rnd_node) ^ 2) in Hi.
  apply bind_Ok in Hi. destruct Hi as [d [Hd Hi]].
  apply bind_Ok in Hi. destruct Hi as [j [Hj Hi]].
  apply Ok_inj in Hi. subst j.
  apply py_min_is_minimum in Hd. destruct Hd as [_ Hall].
  apply py_index_Ok in Hj. rewrite nth_error_map, Hn in Hj.
  simpl in Hj. injection Hj as Hfn.
  intros m Hm. unfold EuclideanDistanceOfNodes.
  apply sqrt_le_1_alt.
  replace ((y rnd_node - y n) ^ 2 + (x rnd_node - x n) ^ 2) with (f n)
    by (unfold f; ring).
  replace ((y rnd_node - y m) ^ 2 + (x rnd_node - x m) ^ 2) with (f m)
    by (unfold f; ring).
  rewrite Hfn. apply Hall, in_map, Hm.
Qed.
